(** * LinkedinScraping: the candidate scoring and resolution engine

    A shallow embedding of [src/utils/name_match.py] and [src/matcher.py],
    and the properties of the name normaliser, the similarity scorer, the
    face-metric populator, the classifier and the orchestrator. *)

From Stdlib Require Import ZArith NArith QArith Qround Qabs Lqa List String Ascii Lia Bool.
From Stdlib Require Import Permutation.
From stdpp Require Import gmap strings list.

Local Open Scope N_scope.

(** ** Python strings

    A Python [str] is a sequence of Unicode code points. *)

Module PyStr.

Definition str := list N.

(** A literal of the source, read code point by code point. *)
Definition py (s : string) : str :=
  map N_of_ascii (list_ascii_of_string s).

Definition str_eqb (a b : str) : bool := bool_decide (a = b).

(** Truth value of a string: the empty string is false. *)
Definition truthy (s : str) : bool :=
  match s with [] => false | _ => true end.

(** [str.isspace] of one code point: tab to carriage return, the four
    separators 0x1c..0x1f, the space, and the white space beyond ASCII
    (U+0085, U+00A0, U+1680, U+2000..U+200A, U+2028, U+2029, U+202F,
    U+205F, U+3000). [str.split], [str.strip] and the class [\s] of a
    regular expression on a [str] all use this set. *)
Definition isspace (c : N) : bool :=
  ((9 <=? c) && (c <=? 13)) || ((28 <=? c) && (c <=? 32))
  || (c =? 133) || (c =? 160) || (c =? 5760)
  || ((8192 <=? c) && (c <=? 8202)) || (c =? 8232) || (c =? 8233)
  || (c =? 8239) || (c =? 8287) || (c =? 12288).

Definition is_ascii (c : N) : bool := c <? 128.

(** [str.lower] on the code points below 128. Past [unidecode] no other
    code point occurs: its tables hold ASCII replacement strings. *)
Definition lower_cp (c : N) : N :=
  if (65 <=? c) && (c <=? 90) then c + 32 else c.

Definition lower (s : str) : str := map lower_cp s.

(** [sep.join(l)] *)
Fixpoint join (sep : str) (l : list str) : str :=
  match l with
  | [] => []
  | x :: r => match r with [] => x | _ => x ++ sep ++ join sep r end
  end.

(** Splitting at every code point that satisfies [sep], dropping empty
    pieces; [cur] is the piece being read. *)
Fixpoint split_by (sep : N -> bool) (s : str) (cur : str) : list str :=
  match s with
  | [] => match cur with [] => [] | _ => [cur] end
  | c :: r =>
      if sep c
      then match cur with
           | [] => split_by sep r []
           | _ => cur :: split_by sep r []
           end
      else split_by sep r (cur ++ [c])
  end.

(** [s.split()] *)
Definition split (s : str) : list str := split_by isspace s [].

(** [s.strip()]: leading and trailing white space removed. *)
Fixpoint lstrip (s : str) : str :=
  match s with
  | c :: r => if isspace c then lstrip r else s
  | [] => []
  end.

Definition strip (s : str) : str := rev (lstrip (rev (lstrip s))).

(** [x or ""] for an optional string. *)
Definition or_empty (s : option str) : str :=
  match s with Some x => x | None => [] end.

(** Truth value of an optional string: [None] and [""] are false. *)
Definition truthy_opt (s : option str) : bool :=
  match s with Some x => truthy x | None => false end.

(** [a or b] *)
Definition or_else (a b : option str) : option str :=
  if truthy_opt a then a else b.

End PyStr.
Export PyStr.

(** ** unidecode

    [unidecode(s)] returns an ASCII string unchanged; otherwise every code
    point below 0x80 is kept and every other one is replaced by its entry
    in the transliteration tables, or by nothing when it has none. The
    tables are data of the library: they are a parameter here. *)

Module Unidecode.

Section WithTable.
Variable table : N -> option str.

Definition get_repl_str (c : N) : option str :=
  if c <? 128 then Some [c] else table c.

Definition unidecode (s : str) : str :=
  if forallb is_ascii s then s
  else flat_map (fun c => or_empty (get_repl_str c)) s.
End WithTable.

(** A sample table: the library's entries for U+00C0..U+00FF, and no
    entry for any other code point. *)
Definition latin1_table (c : N) : option str :=
  if (192 <=? c) && (c <=? 197) then Some (py "A")
  else if c =? 198 then Some (py "AE")
  else if c =? 199 then Some (py "C")
  else if (200 <=? c) && (c <=? 203) then Some (py "E")
  else if (204 <=? c) && (c <=? 207) then Some (py "I")
  else if c =? 208 then Some (py "D")
  else if c =? 209 then Some (py "N")
  else if (210 <=? c) && (c <=? 214) then Some (py "O")
  else if c =? 215 then Some (py "x")
  else if c =? 216 then Some (py "O")
  else if (217 <=? c) && (c <=? 220) then Some (py "U")
  else if c =? 221 then Some (py "Y")
  else if c =? 222 then Some (py "Th")
  else if c =? 223 then Some (py "ss")
  else if (224 <=? c) && (c <=? 229) then Some (py "a")
  else if c =? 230 then Some (py "ae")
  else if c =? 231 then Some (py "c")
  else if (232 <=? c) && (c <=? 235) then Some (py "e")
  else if (236 <=? c) && (c <=? 239) then Some (py "i")
  else if c =? 240 then Some (py "d")
  else if c =? 241 then Some (py "n")
  else if (242 <=? c) && (c <=? 246) then Some (py "o")
  else if c =? 247 then Some (py "/")
  else if c =? 248 then Some (py "o")
  else if (249 <=? c) && (c <=? 252) then Some (py "u")
  else if c =? 253 then Some (py "y")
  else if c =? 254 then Some (py "th")
  else if c =? 255 then Some (py "y")
  else None.

End Unidecode.
Export Unidecode.

(** ** rapidfuzz

    [fuzz.token_sort_ratio(a, b)] sorts the white-space separated tokens of
    each string, joins them with one space and returns [fuzz.ratio] of the
    two results: 100 times the normalized Indel similarity, where the Indel
    distance of two strings is the sum of their lengths minus twice the
    length of a longest common subsequence, and the normalized distance of
    two empty strings is 0, so that two empty strings score 100. No
    preprocessing takes place ([processor=None]). The library computes the
    score in double precision; here it is the rational number itself. *)

Module RapidFuzz.

(** Lexicographic order of strings by code point, as [sorted] compares. *)
Fixpoint str_leb (a b : str) : bool :=
  match a, b with
  | [], _ => true
  | _ :: _, [] => false
  | x :: a', y :: b' => if x <? y then true else if y <? x then false else str_leb a' b'
  end.

Fixpoint insert_sorted (x : str) (l : list str) : list str :=
  match l with
  | [] => [x]
  | y :: r => if str_leb x y then x :: l else y :: insert_sorted x r
  end.

(** [sorted(l)] *)
Definition sorted (l : list str) : list str :=
  fold_right insert_sorted [] l.

(** Length of a longest common subsequence. *)
Fixpoint lcs (a b : str) : nat :=
  match a with
  | [] => O
  | x :: a' =>
      (fix inner (b : str) : nat :=
         match b with
         | [] => O
         | y :: b' =>
             if x =? y then S (lcs a' b')
             else Nat.max (lcs a' b) (inner b')
         end) b
  end.

Definition indel_distance (a b : str) : nat :=
  (length a + length b - 2 * lcs a b)%nat.

Definition indel_normalized_distance (a b : str) : Q :=
  let maximum := (length a + length b)%nat in
  match maximum with
  | O => 0%Q
  | _ => (Z.of_nat (indel_distance a b) # Pos.of_nat maximum)%Q
  end.

Definition indel_normalized_similarity (a b : str) : Q :=
  (1 - indel_normalized_distance a b)%Q.

Definition ratio (a b : str) : Q :=
  (indel_normalized_similarity a b * 100)%Q.

Definition token_sort_ratio (a b : str) : Q :=
  let sorted_a := join (py " ") (sorted (split a)) in
  let sorted_b := join (py " ") (sorted (split b)) in
  ratio sorted_a sorted_b.

End RapidFuzz.
Export RapidFuzz.

(** ** src/utils/name_match.py *)

Module NameMatch.

(** The characters the pattern [[^a-z0-9\s'-]] does not match: lower-case
    letters, digits, white space, apostrophe and hyphen. *)
Definition in_class (c : N) : bool :=
  ((97 <=? c) && (c <=? 122)) || ((48 <=? c) && (c <=? 57))
  || isspace c || (c =? 39) || (c =? 45).

(** [re.sub(r"[^a-z0-9\s'-]+", " ", s)]: every maximal run of characters
    of the negated class becomes one space; [in_run] tells that the
    previous character belonged to such a run. *)
Fixpoint re_sub (in_run : bool) (s : str) : str :=
  match s with
  | [] => []
  | c :: r =>
      if in_class c then c :: re_sub false r
      else if in_run then re_sub true r
      else 32 :: re_sub true r
  end.

Section WithTable.
Variable table : N -> option str.

Definition normalize_name (s : option str) : str :=
  let s1 := lower (unidecode table (or_empty s)) in
  let s2 := re_sub false s1 in
  join (py " ") (split s2).

(** Exact equality after normalization. *)
Definition is_exact_name (a b : option str) : bool :=
  str_eqb (normalize_name a) (normalize_name b).

(** Name similarity between two names, on the scale 0..100. *)
Definition name_similarity (a b : option str) : Q :=
  token_sort_ratio (normalize_name a) (normalize_name b).
End WithTable.

End NameMatch.
Export NameMatch.

(** ** src/matcher.py: name classification *)

Module Classifier.

Definition FUZZY_MIN : Z := 92.

(** The three strings the classifier returns. *)
Definition MATCHED : str := py "matched".
Definition PROBABLE : str := py "Probable Match (Fuzzy Name)".
Definition NO_MATCH : str := py "no_match".

Section WithTable.
Variable table : N -> option str.

(** [x or 0] for a number: zero is false. *)
Definition or_zero (x : Q) : Q := if Qeq_bool x 0 then 0%Q else x.

Definition classify_name_status (query_name best_name : option str)
    (fuzzy_min : Z) : str :=
  if is_exact_name table query_name best_name then MATCHED
  else
    let sim := or_zero (name_similarity table query_name best_name) in
    if Qle_bool (inject_Z fuzzy_min) sim then PROBABLE else NO_MATCH.
End WithTable.

End Classifier.
Export Classifier.

(** ** Values and records of the person JSON *)

Module Data.

(** A scalar JSON value as Python reads it. A number is given by the
    value it is written with, an integer or a finite decimal; the
    infinities and the not-a-number of the floats are no values here. *)
Inductive pyval :=
  | VNone
  | VBool (b : bool)
  | VNum (q : Q)
  | VStr (s : str).

(** A candidate entry; an absent or null key is [None]. [face] is the
    metrics mapping stored for the candidate. *)
Record candidate := {
  profile_url : option str;
  name : option str;
  photo_path : option str;
  image_file : option str;
  face : option (gmap string pyval)
}.

Record person := {
  query_name : option str;
  source_images : option (list str);
  candidates : option (list candidate)
}.

(** [x or []] *)
Definition or_nil {A} (l : option (list A)) : list A :=
  match l with Some x => x | None => [] end.

(** [not l] *)
Definition is_nil {A} (l : list A) : bool :=
  match l with [] => true | _ => false end.

(** [x or {}] *)
Definition or_empty_dict (d : option (gmap string pyval)) : gmap string pyval :=
  match d with Some x => x | None => ∅ end.

Definition truthy_val (v : pyval) : bool :=
  match v with
  | VNone => false
  | VBool b => b
  | VNum q => negb (Qeq_bool q 0)
  | VStr s => truthy s
  end.

(** [d.get(k) or default] *)
Definition get_or (v : option pyval) (default : pyval) : pyval :=
  match v with
  | Some x => if truthy_val x then x else default
  | None => default
  end.

Definition opt_val (s : option str) : pyval :=
  match s with Some x => VStr x | None => VNone end.

Definition with_face (c : candidate) (fm : gmap string pyval) : candidate :=
  {| profile_url := profile_url c; name := name c;
     photo_path := photo_path c; image_file := image_file c;
     face := Some fm |}.

Definition with_candidates (d : person) (cs : option (list candidate)) : person :=
  {| query_name := query_name d; source_images := source_images d;
     candidates := cs |}.

End Data.
Export Data.

(** ** Effects: the persisted record, the scorer calls, exceptions *)

Module Effects.

Inductive exn := ValueError | TypeError | IndexError | OverflowError | ScorerFailure.

Inductive outcome (A : Type) :=
  | Ok (a : A)
  | Raise (e : exn).
Arguments Ok {A} a.
Arguments Raise {A} e.

(** One invocation of the face scorer: its two arguments, and the
    candidate entry it is made for. *)
Record scorer_call := {
  call_for : candidate;
  call_src : str;
  call_img : str
}.

(** The record on disk and the scorer invocations so far. *)
Record world := {
  disk : person;
  calls : list scorer_call
}.

Definition M (A : Type) : Type := world -> outcome A * world.

Definition ret {A} (a : A) : M A := fun w => (Ok a, w).

Definition bind {A B} (m : M A) (k : A -> M B) : M B :=
  fun w => match m w with
           | (Ok a, w') => k a w'
           | (Raise e, w') => (Raise e, w')
           end.

Definition lift {A} (o : outcome A) : M A := fun w => (o, w).

(** [try: body except Exception: handler]; what the body did before it
    raised stays done. *)
Definition try_except {A} (body handler : M A) : M A :=
  fun w => match body w with
           | (Ok a, w') => (Ok a, w')
           | (Raise _, w') => handler w'
           end.

(** [for c in cs: body(c)] *)
Fixpoint for_each {A} (cs : list A) (body : A -> M unit) : M unit :=
  match cs with
  | [] => ret tt
  | c :: r => bind (body c) (fun _ => for_each r body)
  end.

End Effects.
Export Effects.

Declare Scope py_scope.
Delimit Scope py_scope with py.
Notation "'let*' x ':=' m 'in' k" := (bind m (fun x => k))
  (at level 10, x name, m at level 100, k at level 200) : py_scope.
Notation "m ';;' k" := (bind m (fun _ => k))
  (at level 100, k at level 200, right associativity) : py_scope.

(** ** utils/json_store.py: the record store *)

Module JsonStore.

Definition url_is (url : str) (c : candidate) : bool :=
  bool_decide (profile_url c = Some url).

(** The face metrics stored under a profile URL. *)
Definition face_of (d : person) (url : str) : option (gmap string pyval) :=
  match find (url_is url) (or_nil (candidates d)) with
  | Some c => face c
  | None => None
  end.

(** Modelled from the spec: what [candidate_has_face] of
    utils/json_store.py, which is not among the sources, answers;
    has_face(id, profile_url) tells whether face metrics already exist for
    the candidate of that URL. *)
Definition has_face (d : person) (url : str) : bool :=
  bool_decide (is_Some (face_of d url)).

Fixpoint set_first (url : str) (fm : gmap string pyval)
    (cs : list candidate) : list candidate :=
  match cs with
  | [] => []
  | c :: r => if url_is url c then with_face c fm :: r
              else c :: set_first url fm r
  end.

(** Modelled from the spec: what [set_candidate_face] of
    utils/json_store.py, which is not among the sources, writes;
    save_candidate_face(id, profile_url, metrics) stores the metrics
    mapping as the face metrics of the candidate of that URL, the first
    entry of the sequence carrying it. *)
Definition set_face (d : person) (url : str) (fm : gmap string pyval) : person :=
  with_candidates d (option_map (set_first url fm) (candidates d)).

(** Modelled from the spec: [load_person] of utils/json_store.py, which is
    not among the sources; load(id) returns the persisted record. *)
Definition load_person : M person := fun w => (Ok (disk w), w).

(** Modelled from the spec: [candidate_has_face(p, url)] of
    utils/json_store.py, which is not among the sources, as a call on the
    persisted record: it reads the record and raises nothing. *)
Definition candidate_has_face (url : str) : M bool :=
  fun w => (Ok (has_face (disk w) url), w).

(** Modelled from the spec: [set_candidate_face(p, url, fm)] of
    utils/json_store.py, which is not among the sources, as a call on the
    persisted record: it writes the record and raises nothing. *)
Definition set_candidate_face (url : str) (fm : gmap string pyval) : M unit :=
  fun w => (Ok tt, {| disk := set_face (disk w) url fm; calls := calls w |}).

(** A candidate's numeric similarity score, if it has one. *)
Definition numeric_score (c : candidate) : option Q :=
  match or_empty_dict (face c) !! "sigmoid"%string with
  | Some (VNum q) => Some q
  | _ => None
  end.

Fixpoint best_from (cs : list candidate) (best : option (candidate * Q))
    : option candidate :=
  match cs with
  | [] => option_map fst best
  | c :: r =>
      match numeric_score c, best with
      | Some q, Some (_, qb) => if Qlt_le_dec qb q then best_from r (Some (c, q))
                                else best_from r best
      | Some q, None => best_from r (Some (c, q))
      | None, _ => best_from r best
      end
  end.

(** Modelled from the spec: [select_best_candidate] of utils/json_store.py,
    which is not among the sources; among the candidates whose face metrics
    hold a numeric similarity score the one of maximal score, the first
    such in stored order, or none. *)
Definition select_best (d : person) : option candidate :=
  best_from (or_nil (candidates d)) None.

End JsonStore.
Export JsonStore.

(** ** src/matcher.py: the populator and the orchestrator *)

Module Matcher.

Local Open Scope py_scope.

(** [{"error": "no_face_metrics"}] *)
Definition error_metrics : gmap string pyval :=
  {[ "error"%string := VStr (py "no_face_metrics") ]}.

(** Rounding to the nearest integer, ties to the even one. *)
Definition round_half_even (x : Q) : Z :=
  let f := Qfloor x in
  match Qcompare (x - inject_Z f) (1 # 2) with
  | Lt => f
  | Gt => (f + 1)%Z
  | Eq => if Z.even f then f else (f + 1)%Z
  end.

(** The binary doubles. The largest is 2^1024 - 2^971; a number whose
    absolute value reaches 2^1024 - 2^970 rounds beyond it. *)
Definition float_overflows (q : Q) : bool :=
  Qle_bool (inject_Z (2 ^ 1024 - 2 ^ 970)) (Qabs q).

(** The exponent [e] with 2^e <= a < 2^(e+1), for a positive [a]. *)
Definition ilog2 (a : Q) : Z :=
  let k := (Z.log2 (Qnum a) - Z.log2 (Zpos (Qden a)))%Z in
  if Qle_bool (2 ^ k) a then k else (k - 1)%Z.

(** The double nearest to a number in range, ties to the even mantissa:
    53 significant bits, and no bit below 2^-1074. *)
Definition double_of (q : Q) : Q :=
  if Qeq_bool q 0 then 0%Q
  else
    let a := Qabs q in
    let e := Z.max (ilog2 a - 52) (-1074) in
    let m := round_half_even (a / 2 ^ e) in
    let r := (inject_Z m * 2 ^ e)%Q in
    Qred (if Qle_bool 0 q then r else (- r)%Q).

(** [float(v)]. A number becomes the nearest double, and one too large
    for a double, which can only be an integer, raises. [parse_float] is
    [float] on a string: its value, or [None] when the string is no
    number. *)
Definition py_float (parse_float : str -> option Q) (v : pyval) : outcome Q :=
  match v with
  | VNum q => if float_overflows q then Raise OverflowError else Ok (double_of q)
  | VBool b => Ok (if b then 1%Q else 0%Q)
  | VStr s => match parse_float s with
              | Some q => Ok q
              | None => Raise ValueError
              end
  | VNone => Raise TypeError
  end.

(** [float] on a plain decimal numeral in the range of the doubles:
    optional sign, digits, optional fraction, white space around it; the
    value is the nearest double. The exponent, the underscores and the
    names of the infinities and of the not-a-number that [float] reads as
    well are left out. *)
Fixpoint digits (s : str) (acc : N) : option N :=
  match s with
  | [] => Some acc
  | c :: r => if (48 <=? c) && (c <=? 57) then digits r (10 * acc + (c - 48))
              else None
  end.

Fixpoint until_dot (s : str) : str * option str :=
  match s with
  | [] => ([], None)
  | c :: r => if c =? 46 then ([], Some r)
              else let (i, f) := until_dot r in (c :: i, f)
  end.

Definition parse_decimal (s : str) : option Q :=
  let t := strip s in
  let (neg, body) := match t with
                     | 45 :: r => (true, r)
                     | 43 :: r => (false, r)
                     | _ => (false, t)
                     end in
  let (ip, fp) := until_dot body in
  let fp := or_empty fp in
  if is_nil ip && is_nil fp then None
  else match digits ip 0, digits fp 0 with
       | Some i, Some f =>
           let n := (Z.of_N i * 10 ^ Z.of_nat (length fp) + Z.of_N f)%Z in
           Some (double_of ((if neg then (- n)%Z else n)
                            # Z.to_pos (10 ^ Z.of_nat (length fp))))
       | _, _ => None
       end.

(** [l[0]] *)
Definition first_item {A} (l : list A) : outcome A :=
  match l with x :: _ => Ok x | [] => Raise IndexError end.

(** [round(x, 4)] of a float: the exact value of the double is rounded
    to four decimal digits, ties to even; the result stands for the double
    nearest to that decimal. *)
Definition round4 (x : Q) : Q :=
  Qred (round_half_even (double_of x * 10000) # 10000).

(** The mapping [run_matcher] returns. *)
Definition result (nm url : pyval) (sim : Q) (status : str) : gmap string pyval :=
  <[ "name"%string := nm ]>
  (<[ "linkedin_url"%string := url ]>
  (<[ "image_similarity"%string := VNum sim ]>
  (<[ "match_status"%string := VStr status ]> ∅))).

Section WithCollaborators.
Variable table : N -> option str.
Variable NO_IMAGE_TOKEN : str.
Variable compare_faces : str -> str -> outcome (gmap string pyval).
Variable select_best_candidate : person -> option candidate.
Variable parse_float : str -> option Q.

(** The call [compare_faces(src_image, cand_img)] made for candidate [c]. *)
Definition call_compare_faces (c : candidate) (src_image cand_img : str)
    : M (gmap string pyval) :=
  fun w => (compare_faces src_image cand_img,
            {| disk := disk w;
               calls := calls w ++ [{| call_for := c; call_src := src_image;
                                       call_img := cand_img |}] |}).

(** The body of the loop of [compute_missing_face_metrics]: pass over the
    sentinel, over an entry without photo or URL, over an entry that has
    metrics; else score, and store the answer or, on any exception, the
    error marker. The [print] that ends the [try] block reads a key of the
    mapping it was given and is left out. *)
Definition score_candidate (src_image : str) (c : candidate) : M unit :=
  if str_eqb (strip (or_empty (photo_path c))) NO_IMAGE_TOKEN then ret tt
  else
    let cand_img := or_else (photo_path c) (image_file c) in
    let url := profile_url c in
    if negb (truthy_opt cand_img && truthy_opt url) then ret tt
    else
      let* has := candidate_has_face (or_empty url) in
      if has then ret tt
      else
        try_except
          (let* fm := call_compare_faces c src_image (or_empty cand_img) in
           set_candidate_face (or_empty url) fm)
          (set_candidate_face (or_empty url) error_metrics).

(** For each candidate without face metrics, run [compare_faces] and
    persist the result. *)
Definition compute_missing_face_metrics (src_image : str) : M unit :=
  let* data := load_person in
  let candidates := or_nil (candidates data) in
  for_each candidates (score_candidate src_image).

(** Reload the record and select. *)
Definition pick_best_candidate : M (option candidate) :=
  let* data := load_person in
  ret (select_best_candidate data).

(** The payload of the two [no_match] exits. *)
Definition no_match_result (data : person) : gmap string pyval :=
  result (opt_val (query_name data)) (VStr (py "no_match")) 0 (py "no_match").

(** Compare the first source image to all candidates, pick the best by
    face, then classify by name. *)
Definition run_matcher : M (gmap string pyval) :=
  let* data := load_person in
  let src_images := or_nil (source_images data) in
  let cands := or_nil (candidates data) in
  if is_nil src_images || is_nil cands then ret (no_match_result data)
  else
    let* src := lift (first_item src_images) in
    compute_missing_face_metrics src ;;
    let* best := pick_best_candidate in
    match best with
    | None => ret (no_match_result data)
    | Some best =>
        let qname := or_empty (query_name data) in
        let bname := or_empty (name best) in
        let* sig := lift (py_float parse_float
                      (get_or (or_empty_dict (face best) !! "sigmoid"%string)
                              (VNum 0))) in
        let status := classify_name_status table (Some qname) (Some bname) FUZZY_MIN in
        ret (result (VStr qname) (opt_val (profile_url best))
                    (round4 sig) status)
    end.
End WithCollaborators.

End Matcher.
Export Matcher.

(** ** src/scraper/scrape_from_GImages.py: the string helpers *)

Module Scraper.

(** [s.lstrip(chars)], [s.rstrip(chars)] and [s.strip(chars)] for the set
    of characters [p]. *)
Fixpoint lstrip_by (p : N -> bool) (s : str) : str :=
  match s with
  | c :: r => if p c then lstrip_by p r else s
  | [] => []
  end.

Fixpoint rstrip_by (p : N -> bool) (s : str) : str :=
  match s with
  | [] => []
  | c :: r => match rstrip_by p r with
              | [] => if p c then [] else [c]
              | r' => c :: r'
              end
  end.

Definition strip_by (p : N -> bool) (s : str) : str :=
  rstrip_by p (lstrip_by p s).

(** [re.sub(cls+, repl, s)] for a character class [cls] and a replacement
    of one character: every maximal run of characters of the class becomes
    one [repl]; [in_run] tells that the previous character was of the
    class. *)
Fixpoint sub_runs (cls : N -> bool) (repl : N) (in_run : bool) (s : str) : str :=
  match s with
  | [] => []
  | c :: r =>
      if cls c
      then if in_run then sub_runs cls repl true r
           else repl :: sub_runs cls repl true r
      else c :: sub_runs cls repl false r
  end.

(** The class [[a-z0-9]]. *)
Definition is_alnum (c : N) : bool :=
  ((97 <=? c) && (c <=? 122)) || ((48 <=? c) && (c <=? 57)).

Definition is_dash (c : N) : bool := c =? 45.

Definition is_slash (c : N) : bool := c =? 47.

(** [needle in hay] *)
Fixpoint starts_with (needle hay : str) : bool :=
  match needle, hay with
  | [], _ => true
  | _ :: _, [] => false
  | x :: n, y :: h => (x =? y) && starts_with n h
  end.

Fixpoint contains (needle hay : str) : bool :=
  starts_with needle hay
  || match hay with
     | [] => false
     | _ :: h => contains needle h
     end.

(** The three dashes of the class [[-–—]]: hyphen-minus, en dash, em dash. *)
Definition is_title_dash (c : N) : bool :=
  (c =? 45) || (c =? 8211) || (c =? 8212).

(** The pattern [\s[-–—]\s] matches at the head of [s]. *)
Definition sep_at (s : str) : bool :=
  match s with
  | a :: b :: c :: _ => isspace a && is_title_dash b && isspace c
  | _ => false
  end.

(** [re.split(r"\s[-–—]\s", s, maxsplit=1)[0]]: what precedes the first
    match of the pattern, the whole string when there is none. *)
Fixpoint before_sep (s : str) : str :=
  match s with
  | [] => []
  | a :: r => if sep_at s then [] else a :: before_sep r
  end.

Definition _title_to_name (title : option str) : str :=
  let title := strip (or_empty title) in
  if negb (truthy title) then []
  else strip (before_sep title).

(** What [urlparse] returns, as far as the helpers read it. *)
Record parsed_url := {
  scheme : str;
  netloc : str;
  path : str
}.

Section WithLibraries.
(** [str.lower] beyond ASCII is data of the Unicode database: the
    lower-case form of a code point of 128 or more, which may depend on
    its place in the string, is a parameter. Below 128 only the letters A
    to Z change. *)
Variable lower_nonascii : str -> nat -> N -> str.
(** [urllib.parse.urlparse], which may raise. *)
Variable urlparse : str -> outcome parsed_url.

Fixpoint lower_from (whole : str) (i : nat) (s : str) : str :=
  match s with
  | [] => []
  | c :: r => (if c <? 128 then [lower_cp c] else lower_nonascii whole i c)
              ++ lower_from whole (S i) r
  end.

(** [s.lower()] *)
Definition str_lower (s : str) : str := lower_from s 0 s.

Definition _slugify (s : option str) : str :=
  let s := str_lower (strip (or_empty s)) in
  let s := sub_runs (fun c => negb (is_alnum c)) 45 false s in
  let r := strip_by is_dash (sub_runs is_dash 45 false s) in
  if truthy r then r else py "image".

(** [[x for x in path.split("/") if x]] *)
Definition path_parts (path : str) : list str := split_by is_slash path [].

Definition _profile_handle (url : str) : str :=
  match urlparse url with
  | Ok p =>
      match path_parts (path p) with
      | p0 :: p1 :: _ => if str_eqb p0 (py "in") then p1 else _slugify (Some url)
      | _ => _slugify (Some url)
      end
  | Raise _ => _slugify (Some url)
  end.

(** Canonicalize to https://www.linkedin.com/in/<handle> when possible. *)
Definition _normalize_profile_url (u : str) : option str :=
  match urlparse u with
  | Ok p =>
      if negb (contains (py "linkedin.com") (netloc p)) then None
      else
        match path_parts (path p) with
        | p0 :: p1 :: _ =>
            if str_eqb p0 (py "in")
            then Some (py "https://www.linkedin.com/in/" ++ p1)
            else Some (scheme p ++ py "://" ++ netloc p ++ path p)
        | _ => Some (scheme p ++ py "://" ++ netloc p ++ path p)
        end
  | Raise _ => None
  end.
End WithLibraries.

End Scraper.
Export Scraper.

(** ** Definitions used to state the properties *)

Module Props.

(** The characters a normalized name is made of, the space apart. *)
Definition wordchar (c : N) : bool := in_class c && negb (isspace c).

Definition notword (c : N) : bool := negb (wordchar c).

(** A token: a non-empty string of word characters. *)
Definition token (t : str) : Prop :=
  t <> [] /\ Forall (fun c => wordchar c = true) t.

(** Normalization as the specification words it, the characters that
    are not kept being removed: lower-case, transliterate, delete every
    character other than a letter, a digit, white space, the apostrophe
    and the hyphen, then collapse the white space. *)
Definition normalize_by_removal (table : N -> option str) (s : option str) : str :=
  let s1 := lower (unidecode table (or_empty s)) in
  let s2 := filter (fun c => in_class c = true) s1 in
  join (py " ") (split s2).

(** The second step of the classifier on its own. *)
Definition fuzzy_branch (table : N -> option str) (query_name best_name : option str)
    (fuzzy_min : Z) : str :=
  if Qle_bool (inject_Z fuzzy_min) (or_zero (name_similarity table query_name best_name))
  then PROBABLE else NO_MATCH.

(** The verdicts in increasing order of strength. *)
Definition verdict_rank (v : str) : nat :=
  if str_eqb v MATCHED then 2%nat
  else if str_eqb v PROBABLE then 1%nat
  else 0%nat.

(** A candidate the populator would score if it had no metrics yet: its
    photo is not the sentinel, and it has a photo reference and a URL. *)
Definition eligible (NO_IMAGE_TOKEN : str) (c : candidate) : bool :=
  negb (str_eqb (strip (or_empty (photo_path c))) NO_IMAGE_TOKEN)
  && (truthy_opt (or_else (photo_path c) (image_file c))
      && truthy_opt (profile_url c)).

Definition is_sentinel (NO_IMAGE_TOKEN : str) (c : candidate) : bool :=
  str_eqb (strip (or_empty (photo_path c))) NO_IMAGE_TOKEN.

Definition url_of (c : candidate) : str := or_empty (profile_url c).

Definition img_of (c : candidate) : str :=
  or_empty (or_else (photo_path c) (image_file c)).

Definition call_of (src_image : str) (c : candidate) : scorer_call :=
  {| call_for := c; call_src := src_image; call_img := img_of c |}.

(** What the scorer answers to a call. *)
Definition answer (compare_faces : str -> str -> outcome (gmap string pyval))
    (k : scorer_call) : outcome (gmap string pyval) :=
  compare_faces (call_src k) (call_img k).

(** The metrics stored after a call: the scorer's, or the error marker. *)
Definition stored_metrics (compare_faces : str -> str -> outcome (gmap string pyval))
    (k : scorer_call) : gmap string pyval :=
  match answer compare_faces k with
  | Ok fm => fm
  | Raise _ => error_metrics
  end.

(** One entry of the record before and after: nothing but its metrics
    may differ, and metrics once stored stay. *)
Definition preserved (c c' : candidate) : Prop :=
  profile_url c' = profile_url c /\ name c' = name c
  /\ photo_path c' = photo_path c /\ image_file c' = image_file c
  /\ forall fm, face c = Some fm -> face c' = Some fm.

(** The effect of the loop body on the world, in one piece: an eligible
    candidate without metrics is scored and the answer stored, any other
    is passed over. *)
Definition step (NO_IMAGE_TOKEN : str)
    (compare_faces : str -> str -> outcome (gmap string pyval))
    (src_image : str) (w : world) (c : candidate) : world :=
  if eligible NO_IMAGE_TOKEN c && negb (has_face (disk w) (url_of c))
  then {| disk := set_face (disk w) (url_of c)
                    (stored_metrics compare_faces (call_of src_image c));
          calls := calls w ++ [call_of src_image c] |}
  else w.


(** A field of the payload a run returned, if it returned one. *)
Definition field (k : string) (o : outcome (gmap string pyval)) : option pyval :=
  match o with
  | Ok res => res !! k
  | Raise _ => None
  end.

(** The four keys of the payload. *)
Definition payload_keys : gset string :=
  list_to_set ["name"; "linkedin_url"; "image_similarity"; "match_status"]%string.

(** The final state and the value of a run. *)
Definition exec {A} (m : M A) (w : world) : world := snd (m w).
Definition value {A} (m : M A) (w : world) : outcome A := fst (m w).

End Props.
Export Props.

(** ** Definitions used to state further properties *)

Module MoreProps.

(** The tokens of a name: the pieces of its normalized form. *)
Definition name_tokens (table : N -> option str) (a : option str) : list str :=
  split (normalize_name table a).

(** No two dashes in a row. *)
Fixpoint no_double_dash (s : str) : bool :=
  match s with
  | [] => true
  | a :: r => match r with
              | b :: _ => negb (is_dash a && is_dash b)
              | [] => true
              end && no_double_dash r
  end.

(** The first and the last character of a string, if any, satisfy [p]. *)
Definition ends_ok (p : N -> bool) (s : str) : Prop :=
  (forall c, head s = Some c -> p c = true)
  /\ (forall c, last s = Some c -> p c = true).

(** The form of a slug: not empty, made of lower-case letters, digits and
    dashes, with no dash at either end and no two dashes in a row. *)
Definition slug_shape (s : str) : Prop :=
  s <> []
  /\ Forall (fun c => is_alnum c = true \/ c = 45) s
  /\ ends_ok is_alnum s
  /\ no_double_dash s = true.

(** The pattern [\s[-–—]\s] matches somewhere in [s]. *)
Fixpoint has_sep (s : str) : bool :=
  sep_at s
  || match s with
     | [] => false
     | _ :: r => has_sep r
     end.

(** The URLs the calls of a run were made for. *)
Definition call_urls (ks : list scorer_call) : list str :=
  map (fun k => url_of (call_for k)) ks.

End MoreProps.
Export MoreProps.

(** ** Sample data *)

Module Samples.

(** Two names of similarity 92 and two of similarity 91. *)
Definition name92a : str := repeat 97 23 ++ py "bb".
Definition name92b : str := repeat 97 23 ++ py "cc".
Definition name91a : str := repeat 97 91 ++ repeat 98 9.
Definition name91b : str := repeat 97 91 ++ repeat 99 9.

Definition sample_token : str := py "NO_IMAGE".

(** A scorer that fails on one photo and scores every other 0.95. *)
Definition sample_scorer (src_image cand_img : str) : outcome (gmap string pyval) :=
  if str_eqb cand_img (py "bad.jpg") then Raise ScorerFailure
  else Ok {[ "sigmoid"%string := VNum (95 # 100) ]}.

Definition cand (url nm photo : string) (fm : option (gmap string pyval)) : candidate :=
  {| profile_url := Some (py url); name := Some (py nm);
     photo_path := Some (py photo); image_file := None; face := fm |}.

Definition cand_a : candidate := cand "in/a" "Jane Doe" "a.jpg" None.
Definition cand_b : candidate := cand "in/b" "Jonathon Smith" "bad.jpg" None.
Definition cand_c : candidate := cand "in/c" "J. Smith" " NO_IMAGE " None.
Definition cand_d : candidate :=
  cand "in/d" "Jonathon Smith" "d.jpg" (Some {[ "sigmoid"%string := VNum (99 # 100) ]}).
Definition cand_f : candidate :=
  cand "in/f" "Jon Smith" "f.jpg" (Some error_metrics).

Definition record (imgs : list string) (cs : list candidate) : world :=
  {| disk := {| query_name := Some (py "Jonathan Smith");
                source_images := Some (map py imgs);
                candidates := Some cs |};
     calls := [] |}.

Definition sample_world : world := record ["src.jpg"] [cand_a; cand_b; cand_c; cand_d].
Definition no_source_world : world := record [] [cand_a; cand_b].
Definition no_score_world : world := record ["src.jpg"] [cand_f].



(** A lower-casing that leaves the code points beyond ASCII as they are,
    and the Kelvin sign turned into the letter k. *)
Definition sample_lower (whole : str) (i : nat) (c : N) : str :=
  if c =? 8490 then [107] else [c].

(** [urlparse] on two addresses, raising on every other one. *)
Definition sample_urlparse (u : str) : outcome parsed_url :=
  if str_eqb u (py "https://uk.linkedin.com/in/jane-doe/?trk=x")
  then Ok {| scheme := py "https"; netloc := py "uk.linkedin.com";
             path := py "/in/jane-doe/" |}
  else if str_eqb u (py "https://www.linkedin.com/company/acme")
  then Ok {| scheme := py "https"; netloc := py "www.linkedin.com";
             path := py "/company/acme" |}
  else Raise ValueError.

End Samples.
Export Samples.

(** ** Tactics *)

(** Case analysis on every comparison of code points in sight. *)
Ltac cmp_cases :=
  repeat match goal with
         | H : context [N.leb ?a ?b] |- _ => destruct (N.leb_spec a b)
         | H : context [N.ltb ?a ?b] |- _ => destruct (N.ltb_spec a b)
         | H : context [N.eqb ?a ?b] |- _ => destruct (N.eqb_spec a b)
         | |- context [N.leb ?a ?b] => destruct (N.leb_spec a b)
         | |- context [N.ltb ?a ?b] => destruct (N.ltb_spec a b)
         | |- context [N.eqb ?a ?b] => destruct (N.eqb_spec a b)
         end;
  simpl in *; try discriminate; try reflexivity; try lia.

(** Boolean hypotheses on code points, turned into arithmetic ones. *)
Ltac bool_hyps :=
  repeat match goal with
         | H : orb _ _ = true |- _ => apply orb_true_iff in H; destruct H as [H|H]
         | H : andb _ _ = true |- _ => apply andb_true_iff in H; destruct H
         | H : N.leb _ _ = true |- _ => apply N.leb_le in H
         | H : N.ltb _ _ = true |- _ => apply N.ltb_lt in H
         | H : N.eqb _ _ = true |- _ => apply N.eqb_eq in H
         end.

(** * Properties *)

Example normalize_jane :
  normalize_name latin1_table (Some (py "  Jane   A. Doe ")) = py "jane a doe".
Proof. vm_compute. reflexivity. Qed.

Example normalize_accents :
  normalize_name latin1_table (Some [74; 111; 115; 233; 32; 78; 250; 241; 101; 122])
  = py "jose nunez".
Proof. vm_compute. reflexivity. Qed.

Example exact_spacing :
  is_exact_name latin1_table (Some (py "Jane Doe")) (Some (py "jane   doe")) = true.
Proof. vm_compute. reflexivity. Qed.

Example exact_initial :
  is_exact_name latin1_table (Some (py "Jane Doe")) (Some (py "Jane D.")) = false.
Proof. vm_compute. reflexivity. Qed.

Example similarity_reordered :
  (name_similarity latin1_table (Some (py "Jane A. Doe")) (Some (py "doe, jane a")) == 100)%Q.
Proof. vm_compute. reflexivity. Qed.

(** ** Splitting and joining *)

Section SplitJoin.
Variable sep : N -> bool.

Lemma split_by_app_word (t rest cur : str) :
  Forall (fun c => sep c = false) t ->
  split_by sep (t ++ rest) cur = split_by sep rest (cur ++ t).
Proof.
  revert cur. induction t as [|c t IH]; intros cur Ht; simpl.
  - now rewrite app_nil_r.
  - inversion Ht as [|? ? Hc Ht']; subst. rewrite Hc, IH by assumption.
    now rewrite <- app_assoc.
Qed.

Lemma split_by_pieces (s cur : str) :
  Forall (fun c => sep c = false) cur ->
  Forall (fun t => t <> [] /\ Forall (fun c => sep c = false) t) (split_by sep s cur).
Proof.
  revert cur. induction s as [|c s IH]; intros cur Hcur; simpl.
  - destruct cur; constructor; [split; [discriminate | assumption] | constructor].
  - destruct (sep c) eqn:Hc.
    + destruct cur as [|x cur].
      * apply IH. constructor.
      * constructor; [split; [discriminate | assumption] | apply IH; constructor].
    + apply IH. apply Forall_app. split; [assumption | repeat constructor; assumption].
Qed.

Lemma split_by_join (sp : N) (toks : list str) :
  sep sp = true ->
  Forall (fun t => t <> [] /\ Forall (fun c => sep c = false) t) toks ->
  split_by sep (join [sp] toks) [] = toks.
Proof.
  intros Hsp. induction toks as [|t r IH]; intros Htoks; [reflexivity|].
  inversion Htoks as [|? ? [Hne Ht] Hr]; subst.
  destruct r as [|t' r'].
  - simpl. rewrite <- (app_nil_r t) at 1. rewrite split_by_app_word by assumption.
    simpl. destruct t; [contradiction | reflexivity].
  - change (join [sp] (t :: t' :: r')) with (t ++ [sp] ++ join [sp] (t' :: r')).
    rewrite split_by_app_word by assumption. simpl. rewrite Hsp.
    destruct t as [|x t]; [contradiction|]. simpl. f_equal. apply IH, Hr.
Qed.
End SplitJoin.

(** ** The regular expression and the word characters *)

Lemma wordchar_in_class (c : N) : wordchar c = true -> in_class c = true.
Proof. unfold wordchar. intros H. apply andb_true_iff in H. tauto. Qed.

Lemma wordchar_not_space (c : N) : wordchar c = true -> isspace c = false.
Proof.
  unfold wordchar. intros H. apply andb_true_iff in H. destruct H as [_ H].
  now apply negb_true_iff in H.
Qed.

Lemma notword_false (c : N) : notword c = false -> wordchar c = true.
Proof. unfold notword. intros H. now apply negb_false_iff in H. Qed.

Lemma isspace_in_class (c : N) : isspace c = true -> in_class c = true.
Proof. unfold in_class. intros ->. now rewrite !orb_true_r. Qed.

Lemma wordchar_cases (c : N) :
  wordchar c = true ->
  97 <= c <= 122 \/ 48 <= c <= 57 \/ c = 39 \/ c = 45.
Proof.
  unfold wordchar, in_class. intros H. apply andb_true_iff in H.
  destruct H as [H1 H2]. apply negb_true_iff in H2. rewrite H2 in H1.
  rewrite orb_false_r in H1. bool_hyps; lia.
Qed.

Lemma wordchar_ascii (c : N) : wordchar c = true -> is_ascii c = true.
Proof.
  intros H. apply wordchar_cases in H. unfold is_ascii. apply N.ltb_lt. lia.
Qed.

Lemma in_class_lower (c : N) : in_class c = true -> lower_cp c = c.
Proof.
  unfold in_class, isspace, lower_cp. intros H. bool_hyps; cmp_cases.
Qed.

Lemma re_sub_in_class (s : str) :
  Forall (fun c => in_class c = true) s -> re_sub false s = s.
Proof.
  induction s as [|c s IH]; intros H; [reflexivity|].
  inversion H as [|? ? Hc Hs]; subst. simpl. rewrite Hc. f_equal. now apply IH.
Qed.

(** Splitting the substituted string at white space is splitting the
    string itself at every character that is not a word character. *)
Lemma split_re_sub (s : str) :
  (forall cur, split_by isspace (re_sub false s) cur = split_by notword s cur)
  /\ split_by isspace (re_sub true s) [] = split_by notword s [].
Proof.
  induction s as [|c s [IH1 IH2]]; [split; reflexivity|].
  unfold notword, wordchar in *. simpl.
  destruct (in_class c) eqn:Hc; simpl.
  - destruct (isspace c) eqn:Hs; simpl; split; intros; rewrite ?IH1; reflexivity.
  - split.
    + intros cur. rewrite IH2. reflexivity.
    + exact IH2.
Qed.

(** ** normalize_name *)

Lemma join_chars (P : N -> Prop) (sp : N) (toks : list str) :
  P sp -> Forall (Forall P) toks -> Forall P (join [sp] toks).
Proof.
  intros Hsp. induction toks as [|t r IH]; intros H; [constructor|].
  inversion H as [|? ? Ht Hr]; subst. destruct r as [|t' r'].
  - exact Ht.
  - change (join [sp] (t :: t' :: r')) with (t ++ [sp] ++ join [sp] (t' :: r')).
    apply Forall_app. split; [exact Ht|]. constructor; [exact Hsp | apply IH, Hr].
Qed.

Lemma unidecode_ascii (table : N -> option str) (s : str) :
  Forall (fun c => is_ascii c = true) s -> unidecode table s = s.
Proof.
  intros H. unfold unidecode.
  replace (forallb is_ascii s) with true; [reflexivity|].
  symmetry. apply forallb_forall. intros c Hc.
  rewrite List.Forall_forall in H. now apply H.
Qed.

Lemma lower_in_class (s : str) :
  Forall (fun c => in_class c = true) s -> lower s = s.
Proof.
  induction s as [|c s IH]; intros H; [reflexivity|].
  inversion H as [|? ? Hc Hs]; subst. unfold lower in *. simpl.
  now rewrite in_class_lower, IH.
Qed.

Section Normalize.
Variable table : N -> option str.

Lemma normalize_name_split (s : option str) :
  normalize_name table s
  = join (py " ") (split_by notword (lower (unidecode table (or_empty s))) []).
Proof.
  unfold normalize_name, split. now rewrite (proj1 (split_re_sub _)).
Qed.

Lemma normalize_name_pieces (s : option str) :
  exists toks, Forall token toks /\ normalize_name table s = join (py " ") toks.
Proof.
  rewrite normalize_name_split.
  eexists. split; [|reflexivity].
  eapply List.Forall_impl; [|apply split_by_pieces; constructor].
  intros t [Hne Ht]. split; [exact Hne|].
  eapply List.Forall_impl; [|exact Ht]. intros c Hc. now apply notword_false.
Qed.

Lemma normalize_name_joined (toks : list str) :
  Forall token toks ->
  normalize_name table (Some (join (py " ") toks)) = join (py " ") toks.
Proof.
  intros Htoks. change (py " ") with [32].
  assert (Hw : Forall (fun c => wordchar c = true \/ c = 32) (join [32] toks)).
  { apply join_chars; [now right|].
    eapply List.Forall_impl; [|exact Htoks]. intros t [_ Ht].
    eapply List.Forall_impl; [|exact Ht]. intros c Hc. now left. }
  assert (Hcls : Forall (fun c => in_class c = true) (join [32] toks)).
  { eapply List.Forall_impl; [|exact Hw].
    intros c [Hc | ->]; [now apply wordchar_in_class | reflexivity]. }
  unfold normalize_name. change (py " ") with [32]. simpl or_empty.
  rewrite unidecode_ascii.
  2:{ eapply List.Forall_impl; [|exact Hw].
      intros c [Hc | ->]; [now apply wordchar_ascii | reflexivity]. }
  rewrite lower_in_class, re_sub_in_class by assumption.
  unfold split. rewrite split_by_join; [reflexivity | reflexivity |].
  eapply List.Forall_impl; [|exact Htoks]. intros t [Hne Ht]. split; [exact Hne|].
  eapply List.Forall_impl; [|exact Ht]. intros c. apply wordchar_not_space.
Qed.
End Normalize.

(** C7, as the code has it: [normalize_name] transliterates and
    lower-cases its input, cuts it at every character that is not a
    lower-case letter, a digit, an apostrophe or a hyphen, and joins the
    non-empty pieces with single spaces, so that a run of other characters
    separates two pieces like white space does. The result is made of
    tokens of word characters separated by single spaces, and an empty or
    null input gives the empty string. *)
Theorem normalize_name_tokens (table : N -> option str) (s : option str) :
  normalize_name table s
  = join (py " ") (split_by notword (lower (unidecode table (or_empty s))) [])
  /\ (exists toks, Forall token toks /\ normalize_name table s = join (py " ") toks)
  /\ Forall (fun c => wordchar c = true \/ c = 32) (normalize_name table s)
  /\ normalize_name table None = []
  /\ normalize_name table (Some []) = [].
Proof.
  split; [apply normalize_name_split|].
  split; [apply normalize_name_pieces|].
  split; [|split; reflexivity].
  destruct (normalize_name_pieces table s) as [toks [Htoks ->]].
  change (py " ") with [32]. apply join_chars; [now right|].
  eapply List.Forall_impl; [|exact Htoks]. intros t [_ Ht].
  eapply List.Forall_impl; [|exact Ht]. intros c Hc. now left.
Qed.

(** C7, as stated, fails: the characters that are not kept are not
    deleted, they separate: "J.R. Smith" normalizes to "j r smith", while
    deleting the two dots would give "jr smith". *)
Lemma normalize_name_not_removal :
  normalize_name latin1_table (Some (py "J.R. Smith")) = py "j r smith"
  /\ normalize_by_removal latin1_table (Some (py "J.R. Smith")) = py "jr smith"
  /\ normalize_name latin1_table (Some (py "J.R. Smith"))
     <> normalize_by_removal latin1_table (Some (py "J.R. Smith")).
Proof.
  split; [vm_compute; reflexivity|].
  split; [vm_compute; reflexivity|].
  vm_compute. discriminate.
Qed.

(** C9: normalization is idempotent. *)
Theorem normalize_name_idempotent (table : N -> option str) (s : option str) :
  normalize_name table (Some (normalize_name table s)) = normalize_name table s.
Proof.
  destruct (normalize_name_pieces table s) as [toks [Htoks ->]].
  now apply normalize_name_joined.
Qed.

(** ** The similarity score *)

Lemma lcs_cons (x y : N) (a b : str) :
  lcs (x :: a) (y :: b)
  = if x =? y then S (lcs a b) else Nat.max (lcs a (y :: b)) (lcs (x :: a) b).
Proof. reflexivity. Qed.

Lemma lcs_nil_r (a : str) : lcs a [] = O.
Proof. destruct a; reflexivity. Qed.

Lemma lcs_le_l (a b : str) : (lcs a b <= length a)%nat.
Proof.
  revert b. induction a as [|x a IHa]; intros b; [simpl; lia|].
  induction b as [|y b IHb]; [simpl; lia|].
  rewrite lcs_cons. destruct (x =? y).
  - specialize (IHa b). simpl. lia.
  - specialize (IHa (y :: b)). simpl in *. lia.
Qed.

Lemma lcs_le_r (a b : str) : (lcs a b <= length b)%nat.
Proof.
  revert b. induction a as [|x a IHa]; intros b; [simpl; lia|].
  induction b as [|y b IHb]; [simpl; lia|].
  rewrite lcs_cons. destruct (x =? y).
  - specialize (IHa b). simpl. lia.
  - specialize (IHa (y :: b)). simpl in *. lia.
Qed.

Lemma lcs_refl (a : str) : lcs a a = length a.
Proof.
  induction a as [|x a IH]; [reflexivity|].
  rewrite lcs_cons, N.eqb_refl, IH. reflexivity.
Qed.

Lemma indel_distance_le (a b : str) :
  (indel_distance a b <= length a + length b)%nat.
Proof. unfold indel_distance. lia. Qed.

Lemma indel_distance_refl (a : str) : indel_distance a a = O.
Proof. unfold indel_distance. rewrite lcs_refl. lia. Qed.

Lemma indel_normalized_distance_range (a b : str) :
  (0 <= indel_normalized_distance a b <= 1)%Q.
Proof.
  unfold indel_normalized_distance.
  pose proof (indel_distance_le a b) as Hd.
  destruct (length a + length b)%nat as [|n] eqn:Hm.
  - split; unfold Qle; simpl; lia.
  - split; unfold Qle; cbn [Qnum Qden].
    + lia.
    + rewrite <- Pos.of_nat_succ, Zpos_P_of_succ_nat. lia.
Qed.

Lemma indel_normalized_distance_refl (a : str) :
  (indel_normalized_distance a a == 0)%Q.
Proof.
  unfold indel_normalized_distance. rewrite indel_distance_refl.
  destruct (length a + length a)%nat; reflexivity.
Qed.

Lemma ratio_range (a b : str) : (0 <= ratio a b <= 100)%Q.
Proof.
  unfold ratio, indel_normalized_similarity.
  pose proof (indel_normalized_distance_range a b) as [H0 H1].
  split; lra.
Qed.

Lemma ratio_refl (a : str) : (ratio a a == 100)%Q.
Proof.
  unfold ratio, indel_normalized_similarity.
  rewrite indel_normalized_distance_refl. reflexivity.
Qed.

Lemma or_zero_eq (x : Q) : (or_zero x == x)%Q.
Proof.
  unfold or_zero. destruct (Qeq_bool x 0) eqn:H; [|reflexivity].
  apply Qeq_bool_iff in H. now symmetry.
Qed.

Lemma is_exact_name_eq (table : N -> option str) (a b : option str) :
  is_exact_name table a b = true <-> normalize_name table a = normalize_name table b.
Proof. unfold is_exact_name, str_eqb. apply bool_decide_eq_true. Qed.

Lemma name_similarity_exact (table : N -> option str) (a b : option str) :
  is_exact_name table a b = true -> (name_similarity table a b == 100)%Q.
Proof.
  intros H. apply is_exact_name_eq in H. unfold name_similarity, token_sort_ratio.
  rewrite H. apply ratio_refl.
Qed.

(** C6, as the code has it: the similarity of two names lies between 0
    and 100, and it is 100 when both names normalize to the empty
    string. *)
Theorem name_similarity_range (table : N -> option str) (a b : option str) :
  (0 <= name_similarity table a b <= 100)%Q
  /\ (normalize_name table a = [] -> normalize_name table b = [] ->
      (name_similarity table a b == 100)%Q).
Proof.
  split.
  - unfold name_similarity, token_sort_ratio. apply ratio_range.
  - intros Ha Hb. apply name_similarity_exact. apply is_exact_name_eq. congruence.
Qed.

Lemma name_similarity_range_witness :
  normalize_name latin1_table None = []
  /\ normalize_name latin1_table (Some (py " .. ")) = []
  /\ (name_similarity latin1_table None (Some (py " .. ")) == 100)%Q.
Proof.
  split; [reflexivity|]. split; [vm_compute; reflexivity|].
  apply (proj2 (name_similarity_range latin1_table None (Some (py " .. "))));
    vm_compute; reflexivity.
Defined.

(** C6, as stated, fails: two empty names score 100, not 0. *)
Lemma name_similarity_empty_not_zero :
  normalize_name latin1_table (Some []) = []
  /\ ~ (name_similarity latin1_table (Some []) (Some []) == 0)%Q.
Proof. split; [reflexivity|]. vm_compute. discriminate. Qed.

(** ** The classifier *)

Lemma classify_name_status_cases (table : N -> option str)
    (q b : option str) (t : Z) :
  classify_name_status table q b t
  = if is_exact_name table q b then MATCHED else fuzzy_branch table q b t.
Proof. reflexivity. Qed.

Lemma fuzzy_branch_ge (table : N -> option str) (q b : option str) (t : Z) :
  (inject_Z t <= name_similarity table q b)%Q -> fuzzy_branch table q b t = PROBABLE.
Proof.
  intros H. unfold fuzzy_branch.
  replace (Qle_bool _ _) with true; [reflexivity|].
  symmetry. apply Qle_bool_iff. now rewrite or_zero_eq.
Qed.

Lemma fuzzy_branch_lt (table : N -> option str) (q b : option str) (t : Z) :
  (name_similarity table q b < inject_Z t)%Q -> fuzzy_branch table q b t = NO_MATCH.
Proof.
  intros H. unfold fuzzy_branch.
  destruct (Qle_bool _ _) eqn:E; [|reflexivity].
  apply Qle_bool_iff in E. rewrite or_zero_eq in E.
  exfalso. eapply Qlt_irrefl, Qlt_le_trans; eassumption.
Qed.

(** C1: the classifier returns [matched] on an exact match; otherwise the
    fuzzy verdict when the similarity reaches the threshold; otherwise
    [no_match]. With the default threshold 92 and no exact match, a
    similarity of 92 gives the fuzzy verdict and a similarity of 91 gives
    [no_match]. *)
Theorem classify_name_status_order (table : N -> option str)
    (q b : option str) (t : Z) :
  (is_exact_name table q b = true -> classify_name_status table q b t = MATCHED)
  /\ (is_exact_name table q b = false ->
      (inject_Z t <= name_similarity table q b)%Q ->
      classify_name_status table q b t = PROBABLE)
  /\ (is_exact_name table q b = false ->
      (name_similarity table q b < inject_Z t)%Q ->
      classify_name_status table q b t = NO_MATCH)
  /\ (is_exact_name table q b = false ->
      (name_similarity table q b == 92)%Q ->
      classify_name_status table q b FUZZY_MIN = PROBABLE)
  /\ (is_exact_name table q b = false ->
      (name_similarity table q b == 91)%Q ->
      classify_name_status table q b FUZZY_MIN = NO_MATCH).
Proof.
  rewrite !classify_name_status_cases.
  repeat split; intros He; rewrite He; try reflexivity; intros Hs.
  - now apply fuzzy_branch_ge.
  - now apply fuzzy_branch_lt.
  - apply fuzzy_branch_ge. rewrite Hs. unfold FUZZY_MIN, Qle. simpl. lia.
  - apply fuzzy_branch_lt. rewrite Hs. reflexivity.
Qed.

Lemma classify_name_status_order_witness :
  classify_name_status latin1_table (Some (py "Jane Doe")) (Some (py "jane   doe"))
    FUZZY_MIN = MATCHED
  /\ ((name_similarity latin1_table (Some name92a) (Some name92b) == 92)%Q
      /\ classify_name_status latin1_table (Some name92a) (Some name92b) FUZZY_MIN
         = PROBABLE)
  /\ ((name_similarity latin1_table (Some name91a) (Some name91b) == 91)%Q
      /\ classify_name_status latin1_table (Some name91a) (Some name91b) FUZZY_MIN
         = NO_MATCH).
Proof.
  split.
  { apply (classify_name_status_order latin1_table). vm_compute. reflexivity. }
  split.
  { split; [vm_compute; reflexivity|].
    apply (classify_name_status_order latin1_table (Some name92a) (Some name92b) 0);
      vm_compute; reflexivity. }
  split; [vm_compute; reflexivity|].
  apply (classify_name_status_order latin1_table (Some name91a) (Some name91b) 0);
    vm_compute; reflexivity.
Defined.

(** C10: two names that are equal after normalization have similarity
    exactly 100; so for every threshold up to 100 the fuzzy step on its own
    would accept the pair, and the verdict [matched] of the exact step is
    not below it. *)
Theorem exact_names_score_100 (table : N -> option str) (a b : option str) :
  is_exact_name table a b = true ->
  (name_similarity table a b == 100)%Q
  /\ forall t : Z, (t <= 100)%Z ->
       fuzzy_branch table a b t = PROBABLE
       /\ classify_name_status table a b t = MATCHED
       /\ (verdict_rank (fuzzy_branch table a b t)
           <= verdict_rank (classify_name_status table a b t))%nat.
Proof.
  intros He. pose proof (name_similarity_exact table a b He) as Hs.
  split; [exact Hs|]. intros t Ht.
  assert (Hf : fuzzy_branch table a b t = PROBABLE).
  { apply fuzzy_branch_ge. rewrite Hs. unfold Qle. simpl. lia. }
  rewrite classify_name_status_cases, He, Hf.
  repeat split. vm_compute. lia.
Qed.

Lemma exact_names_score_100_witness :
  is_exact_name latin1_table (Some (py "Jane Doe")) (Some (py "jane   doe")) = true
  /\ (name_similarity latin1_table (Some (py "Jane Doe")) (Some (py "jane   doe")) == 100)%Q.
Proof.
  split; [vm_compute; reflexivity|].
  apply (exact_names_score_100 latin1_table (Some (py "Jane Doe")) (Some (py "jane   doe"))).
  vm_compute. reflexivity.
Defined.

(** ** The record store *)

Lemma preserved_refl (c : candidate) : preserved c c.
Proof. unfold preserved. auto. Qed.

Lemma preserved_trans (a b c : candidate) :
  preserved a b -> preserved b c -> preserved a c.
Proof.
  unfold preserved. intros (H1 & H2 & H3 & H4 & H5) (K1 & K2 & K3 & K4 & K5).
  repeat split; try congruence. auto.
Qed.

Lemma Forall2_preserved_refl (cs : list candidate) : Forall2 preserved cs cs.
Proof. induction cs; constructor; auto using preserved_refl. Qed.

Lemma Forall2_preserved_trans (a b c : list candidate) :
  Forall2 preserved a b -> Forall2 preserved b c -> Forall2 preserved a c.
Proof.
  intros H. revert c. induction H; intros c' K; inversion K; subst; constructor.
  - eapply preserved_trans; eassumption.
  - auto.
Qed.

Lemma url_is_preserved (u : str) (c c' : candidate) :
  preserved c c' -> url_is u c' = url_is u c.
Proof. intros (H & _). unfold url_is. now rewrite H. Qed.

Lemma find_set_first_ne (u u' : str) (fm : gmap string pyval) (cs : list candidate) :
  u <> u' -> find (url_is u') (set_first u fm cs) = find (url_is u') cs.
Proof.
  intros Hne. induction cs as [|c cs IH]; [reflexivity|]. simpl.
  destruct (url_is u c) eqn:Hu; simpl.
  - unfold url_is in *. simpl. apply bool_decide_eq_true in Hu.
    rewrite Hu. rewrite !bool_decide_eq_false_2 by congruence. reflexivity.
  - rewrite IH. reflexivity.
Qed.

Lemma find_set_first_eq (u : str) (fm : gmap string pyval) (cs : list candidate) :
  find (url_is u) (set_first u fm cs)
  = option_map (fun c => with_face c fm) (find (url_is u) cs).
Proof.
  induction cs as [|c cs IH]; [reflexivity|]. simpl.
  destruct (url_is u c) eqn:Hu; simpl.
  - replace (url_is u (with_face c fm)) with true; reflexivity.
  - rewrite Hu. exact IH.
Qed.

Lemma set_first_preserved (u : str) (fm : gmap string pyval) (cs : list candidate) :
  (forall c, find (url_is u) cs = Some c -> face c = None) ->
  Forall2 preserved cs (set_first u fm cs).
Proof.
  induction cs as [|c cs IH]; intros H; [constructor|]. simpl in *.
  destruct (url_is u c) eqn:Hu.
  - constructor; [|apply Forall2_preserved_refl].
    unfold preserved. simpl. repeat split; try reflexivity.
    intros fm'. rewrite (H c eq_refl). discriminate.
  - constructor; [apply preserved_refl | apply IH, H].
Qed.

Lemma face_of_set_face_ne (d : person) (u u' : str) (fm : gmap string pyval) :
  u <> u' -> face_of (set_face d u fm) u' = face_of d u'.
Proof.
  intros Hne. unfold face_of, set_face. simpl.
  destruct (candidates d) as [cs|]; simpl; [|reflexivity].
  now rewrite find_set_first_ne.
Qed.

Lemma face_of_set_face_eq (d : person) (u : str) (fm : gmap string pyval) :
  is_Some (find (url_is u) (or_nil (candidates d))) ->
  face_of (set_face d u fm) u = Some fm.
Proof.
  unfold face_of, set_face. simpl.
  destruct (candidates d) as [cs|]; simpl.
  - rewrite find_set_first_eq. intros [c ->]. reflexivity.
  - intros [c Hc]. discriminate.
Qed.

Lemma has_face_true (d : person) (u : str) :
  has_face d u = true <-> is_Some (face_of d u).
Proof. unfold has_face. apply bool_decide_eq_true. Qed.

Lemma has_face_false (d : person) (u : str) :
  has_face d u = false <-> face_of d u = None.
Proof.
  unfold has_face. rewrite bool_decide_eq_false.
  destruct (face_of d u); split; intros H; try reflexivity; try discriminate.
  - exfalso. apply H. eauto.
  - intros [x Hx]. discriminate.
Qed.

Lemma set_face_preserved (d : person) (u : str) (fm : gmap string pyval) :
  has_face d u = false ->
  Forall2 preserved (or_nil (candidates d)) (or_nil (candidates (set_face d u fm))).
Proof.
  intros H. apply has_face_false in H. unfold face_of in H.
  unfold set_face. simpl. destruct (candidates d) as [cs|]; simpl in *; [|constructor].
  apply set_first_preserved. intros c Hc. now rewrite Hc in H.
Qed.

Lemma find_preserved (u : str) (cs cs' : list candidate) :
  Forall2 preserved cs cs' ->
  match find (url_is u) cs, find (url_is u) cs' with
  | Some c, Some c' => preserved c c'
  | None, None => True
  | _, _ => False
  end.
Proof.
  induction 1 as [|c c' cs cs' Hc Hcs IH]; simpl; [exact I|].
  rewrite (url_is_preserved u c c' Hc). destruct (url_is u c); [exact Hc | exact IH].
Qed.

Lemma face_of_preserved (d d' : person) (u : str) (fm : gmap string pyval) :
  Forall2 preserved (or_nil (candidates d)) (or_nil (candidates d')) ->
  face_of d u = Some fm -> face_of d' u = Some fm.
Proof.
  intros H. pose proof (find_preserved u _ _ H) as K. unfold face_of.
  destruct (find (url_is u) (or_nil (candidates d))) as [c|];
    destruct (find (url_is u) (or_nil (candidates d'))) as [c'|];
    try contradiction; try discriminate.
  destruct K as (_ & _ & _ & _ & K). apply K.
Qed.

Lemma has_face_preserved (d d' : person) (u : str) :
  Forall2 preserved (or_nil (candidates d)) (or_nil (candidates d')) ->
  has_face d u = true -> has_face d' u = true.
Proof.
  intros H K. apply has_face_true in K. destruct K as [fm K].
  apply has_face_true. exists fm. eapply face_of_preserved; eassumption.
Qed.

Lemma known_preserved (u : str) (cs cs' : list candidate) :
  Forall2 preserved cs cs' ->
  is_Some (find (url_is u) cs) -> is_Some (find (url_is u) cs').
Proof.
  intros H [c Hc]. pose proof (find_preserved u _ _ H) as K. rewrite Hc in K.
  destruct (find (url_is u) cs'); [eauto | contradiction].
Qed.

Lemma known_elem (c : candidate) (cs : list candidate) :
  In c cs -> truthy_opt (profile_url c) = true ->
  is_Some (find (url_is (url_of c)) cs).
Proof.
  intros Hin Hu. induction cs as [|x cs IH]; [contradiction|]. simpl.
  destruct (url_is (url_of c) x) eqn:E; [eauto|].
  destruct Hin as [->|Hin]; [|auto].
  unfold url_is, url_of in E. apply bool_decide_eq_false in E.
  destruct (profile_url c); [contradiction | discriminate].
Qed.

(** ** The populator *)

Lemma preserved_eligible (tok : str) (c c' : candidate) :
  preserved c c' ->
  eligible tok c' = eligible tok c /\ url_of c' = url_of c /\ img_of c' = img_of c
  /\ is_sentinel tok c' = is_sentinel tok c.
Proof.
  intros (H1 & _ & H3 & H4 & _). unfold eligible, url_of, img_of, is_sentinel.
  now rewrite H1, H3, H4.
Qed.

Lemma eligible_url (tok : str) (c : candidate) :
  eligible tok c = true -> truthy_opt (profile_url c) = true.
Proof.
  unfold eligible. intros H. apply andb_true_iff in H. destruct H as [_ H].
  apply andb_true_iff in H. tauto.
Qed.

Lemma eligible_not_sentinel (tok : str) (c : candidate) :
  eligible tok c = true -> is_sentinel tok c = false.
Proof.
  unfold eligible, is_sentinel. intros H. apply andb_true_iff in H.
  destruct H as [H _]. now apply negb_true_iff in H.
Qed.

Section Populator.
Variable NO_IMAGE_TOKEN : str.
Variable compare_faces : str -> str -> outcome (gmap string pyval).
Variable src : str.

Abbreviation body := (score_candidate NO_IMAGE_TOKEN compare_faces src).
Abbreviation step := (step NO_IMAGE_TOKEN compare_faces src).

(** The loop body never raises, and acts on the world as [step] says. *)
Lemma score_candidate_step (c : candidate) (w : world) :
  body c w = (Ok tt, step w c).
Proof.
  unfold score_candidate, Props.step, eligible, url_of.
  destruct (str_eqb (strip (or_empty (photo_path c))) NO_IMAGE_TOKEN); [reflexivity|].
  simpl negb at 1. rewrite andb_true_l.
  destruct (truthy_opt (or_else (photo_path c) (image_file c))
            && truthy_opt (profile_url c)); simpl; [|reflexivity].
  unfold bind, candidate_has_face. simpl.
  destruct (has_face (disk w) (or_empty (profile_url c))); simpl; [reflexivity|].
  unfold try_except, call_compare_faces, set_candidate_face, stored_metrics,
    answer, call_of, img_of, url_of. simpl.
  destruct (compare_faces src _); reflexivity.
Qed.

Lemma for_each_score (cs : list candidate) (w : world) :
  for_each cs body w = (Ok tt, fold_left step cs w).
Proof.
  revert w. induction cs as [|c cs IH]; intros w; [reflexivity|].
  simpl. unfold bind. rewrite score_candidate_step. apply IH.
Qed.

Lemma compute_missing_face_metrics_run (w : world) :
  compute_missing_face_metrics NO_IMAGE_TOKEN compare_faces src w
  = (Ok tt, fold_left step (or_nil (candidates (disk w))) w).
Proof.
  unfold compute_missing_face_metrics, bind, load_person. apply for_each_score.
Qed.

Lemma step_cases (w : world) (c : candidate) :
  (step w c = w
   /\ (eligible NO_IMAGE_TOKEN c = false \/ has_face (disk w) (url_of c) = true))
  \/ (eligible NO_IMAGE_TOKEN c = true
      /\ has_face (disk w) (url_of c) = false
      /\ disk (step w c)
         = set_face (disk w) (url_of c) (stored_metrics compare_faces (call_of src c))
      /\ calls (step w c) = calls w ++ [call_of src c]).
Proof.
  unfold Props.step.
  destruct (eligible NO_IMAGE_TOKEN c); simpl; [|left; auto].
  destruct (has_face (disk w) (url_of c)); simpl; [left; auto|].
  right. auto.
Qed.

Lemma step_preserved (w : world) (c : candidate) :
  Forall2 preserved (or_nil (candidates (disk w)))
    (or_nil (candidates (disk (step w c)))).
Proof.
  destruct (step_cases w c) as [[-> _]|(_ & Hf & -> & _)].
  - apply Forall2_preserved_refl.
  - now apply set_face_preserved.
Qed.

Lemma step_frame (w : world) (c : candidate) :
  query_name (disk (step w c)) = query_name (disk w)
  /\ source_images (disk (step w c)) = source_images (disk w).
Proof.
  destruct (step_cases w c) as [[-> _]|(_ & _ & -> & _)]; split; reflexivity.
Qed.

Lemma populate_preserved (cs : list candidate) (w : world) :
  Forall2 preserved (or_nil (candidates (disk w)))
    (or_nil (candidates (disk (fold_left step cs w)))).
Proof.
  revert w. induction cs as [|c cs IH]; intros w; simpl.
  - apply Forall2_preserved_refl.
  - eapply Forall2_preserved_trans; [apply step_preserved | apply IH].
Qed.

Lemma populate_frame (cs : list candidate) (w : world) :
  query_name (disk (fold_left step cs w)) = query_name (disk w)
  /\ source_images (disk (fold_left step cs w)) = source_images (disk w).
Proof.
  revert w. induction cs as [|c cs IH]; intros w; simpl; [auto|].
  destruct (IH (step w c)) as [-> ->]. apply step_frame.
Qed.

(** Candidates that are not eligible or already have metrics are passed
    over: nothing is called, nothing is written. *)
Lemma populate_skip (cs : list candidate) (w : world) :
  Forall (fun c => eligible NO_IMAGE_TOKEN c = false
                   \/ has_face (disk w) (url_of c) = true) cs ->
  fold_left step cs w = w.
Proof.
  induction cs as [|c cs IH]; intros H; [reflexivity|].
  inversion H as [|? ? Hc Hcs]; subst. simpl.
  assert (E : step w c = w).
  { unfold Props.step. destruct Hc as [-> | ->]; [reflexivity|].
    now rewrite andb_false_r. }
  rewrite E. now apply IH.
Qed.

(** The calls of a run: each is made for an eligible candidate of the
    list that had no metrics when the run began, and its answer, or the
    error marker if the scorer raised, is what the record holds for that
    candidate when the run ends. *)
Lemma populate_calls (cs : list candidate) (w : world) :
  (forall c, In c cs -> eligible NO_IMAGE_TOKEN c = true ->
             is_Some (find (url_is (url_of c)) (or_nil (candidates (disk w))))) ->
  exists ks,
    calls (fold_left step cs w) = calls w ++ ks
    /\ Forall (fun k =>
         In (call_for k) cs
         /\ k = call_of src (call_for k)
         /\ eligible NO_IMAGE_TOKEN (call_for k) = true
         /\ has_face (disk w) (url_of (call_for k)) = false
         /\ face_of (disk (fold_left step cs w)) (url_of (call_for k))
            = Some (stored_metrics compare_faces k)) ks.
Proof.
  revert w. induction cs as [|c cs IH]; intros w Hk; simpl.
  - exists []. split; [now rewrite app_nil_r | constructor].
  - pose proof (step_preserved w c) as Hp.
    destruct (IH (step w c)) as (ks & Hcalls & Hks).
    { intros c' Hin He. eapply known_preserved; [exact Hp|]. apply Hk; [now right | exact He]. }
    assert (Hrest : Forall (fun k =>
         In (call_for k) (c :: cs)
         /\ k = call_of src (call_for k)
         /\ eligible NO_IMAGE_TOKEN (call_for k) = true
         /\ has_face (disk w) (url_of (call_for k)) = false
         /\ face_of (disk (fold_left step cs (step w c))) (url_of (call_for k))
            = Some (stored_metrics compare_faces k)) ks).
    { eapply List.Forall_impl; [|exact Hks]. intros k (H1 & H2 & H3 & H4 & H5).
      repeat split; try assumption; [now right|].
      destruct (has_face (disk w) (url_of (call_for k))) eqn:E; [|reflexivity].
      rewrite (has_face_preserved _ _ _ Hp E) in H4. discriminate. }
    destruct (step_cases w c) as [[E _]|(He & Hf & Hd & Hc)].
    + rewrite E in *. exists ks. split; assumption.
    + exists (call_of src c :: ks). split.
      * rewrite Hcalls, Hc, <- app_assoc. reflexivity.
      * constructor; [|exact Hrest]. simpl.
        repeat split; try assumption; [now left|].
        eapply face_of_preserved; [apply populate_preserved|].
        rewrite Hd. apply face_of_set_face_eq. apply Hk; [now left | exact He].
Qed.

(** Every eligible candidate of the list has metrics when the run ends. *)
Lemma populate_complete (cs : list candidate) (w : world) :
  (forall c, In c cs -> eligible NO_IMAGE_TOKEN c = true ->
             is_Some (find (url_is (url_of c)) (or_nil (candidates (disk w))))) ->
  forall c, In c cs -> eligible NO_IMAGE_TOKEN c = true ->
            has_face (disk (fold_left step cs w)) (url_of c) = true.
Proof.
  revert w. induction cs as [|c cs IH]; intros w Hk c' Hin He; [contradiction|].
  simpl. pose proof (step_preserved w c) as Hp.
  destruct Hin as [<-|Hin].
  - eapply has_face_preserved; [apply populate_preserved|].
    destruct (step_cases w c) as [[E [H|H]]|(_ & _ & Hd & _)].
    + congruence.
    + now rewrite E.
    + apply has_face_true. rewrite Hd, face_of_set_face_eq; [eauto|].
      apply Hk; [now left | exact He].
  - apply IH; [|exact Hin | exact He].
    intros c'' Hin' He'. eapply known_preserved; [exact Hp|].
    apply Hk; [now right | exact He'].
Qed.

Lemma known_own (w : world) (c : candidate) :
  In c (or_nil (candidates (disk w))) -> eligible NO_IMAGE_TOKEN c = true ->
  is_Some (find (url_is (url_of c)) (or_nil (candidates (disk w)))).
Proof. intros Hin He. apply known_elem; [exact Hin | eapply eligible_url, He]. Qed.
End Populator.

(** Where a URL names one entry only, the metrics the store holds under
    it are that entry's. *)
Lemma face_of_own (d : person) (c : candidate) :
  In c (or_nil (candidates d)) ->
  truthy_opt (profile_url c) = true ->
  (forall c', In c' (or_nil (candidates d)) ->
              profile_url c' = profile_url c -> c' = c) ->
  face_of d (url_of c) = face c.
Proof.
  intros Hin Hu Huniq. unfold face_of.
  destruct (known_elem c _ Hin Hu) as [c' Hc']. rewrite Hc'.
  apply find_some in Hc'. destruct Hc' as [Hin' Hurl].
  unfold url_is, url_of in Hurl. apply bool_decide_eq_true in Hurl.
  f_equal. apply Huniq; [exact Hin'|]. rewrite Hurl.
  destruct (profile_url c); [reflexivity | discriminate].
Qed.

Lemma Forall2_preserved_all (P Q : candidate -> Prop) (cs cs' : list candidate) :
  (forall c c', preserved c c' -> P c -> Q c') ->
  Forall2 preserved cs cs' -> (forall c, In c cs -> P c) -> Forall Q cs'.
Proof.
  intros HPQ H. induction H as [|c c' cs cs' Hc Hcs IH]; intros HP; constructor.
  - eapply HPQ; [exact Hc|]. apply HP. now left.
  - apply IH. intros x Hx. apply HP. now right.
Qed.

(** C2: a second run of the populator on the record the first run left,
    whatever the scorer would answer then, calls the scorer for no
    candidate and leaves the record as it is. And in any run on any
    record, no call is made for a candidate carrying the sentinel or for
    one under whose URL the store already holds metrics (its own, where
    the URL names that entry only), and every entry keeps the metrics it
    held. *)
Theorem populator_second_run_noop (NO_IMAGE_TOKEN : str)
    (compare_faces compare_faces' : str -> str -> outcome (gmap string pyval))
    (src : str) (w : world) :
  let w1 := exec (compute_missing_face_metrics NO_IMAGE_TOKEN compare_faces src) w in
  compute_missing_face_metrics NO_IMAGE_TOKEN compare_faces' src w1 = (Ok tt, w1)
  /\ exists ks,
       calls w1 = calls w ++ ks
       /\ Forall (fun k =>
            is_sentinel NO_IMAGE_TOKEN (call_for k) = false
            /\ has_face (disk w) (url_of (call_for k)) = false
            /\ ((forall c', In c' (or_nil (candidates (disk w))) ->
                            profile_url c' = profile_url (call_for k) ->
                            c' = call_for k) ->
                face (call_for k) = None)) ks
       /\ Forall2 preserved (or_nil (candidates (disk w)))
            (or_nil (candidates (disk w1))).
Proof.
  cbv zeta. unfold exec.
  rewrite (compute_missing_face_metrics_run NO_IMAGE_TOKEN compare_faces src w).
  cbn [snd].
  set (cs := or_nil (candidates (disk w))).
  set (w1 := fold_left (step NO_IMAGE_TOKEN compare_faces src) cs w).
  assert (Hp : Forall2 preserved cs (or_nil (candidates (disk w1))))
    by apply populate_preserved.
  split.
  - rewrite compute_missing_face_metrics_run. f_equal. apply populate_skip.
    eapply Forall2_preserved_all; [|exact Hp|].
    + intros c c' Hc H. destruct (preserved_eligible NO_IMAGE_TOKEN c c' Hc) as (-> & -> & _).
      exact H.
    + intros c Hin. simpl. destruct (eligible NO_IMAGE_TOKEN c) eqn:He; [right | now left].
      apply populate_complete; [|exact Hin | exact He].
      intros c' Hin' He'. now apply known_own with NO_IMAGE_TOKEN.
  - destruct (populate_calls NO_IMAGE_TOKEN compare_faces src cs w) as (ks & Hcalls & Hks).
    { intros c' Hin' He'. now apply known_own with NO_IMAGE_TOKEN. }
    exists ks. split; [exact Hcalls|]. split; [|exact Hp].
    eapply List.Forall_impl; [|exact Hks]. intros k (Hin & _ & He & Hf & _).
    split; [now apply eligible_not_sentinel|]. split; [exact Hf|].
    intros Huniq. apply has_face_false in Hf.
    rewrite <- Hf. symmetry. apply face_of_own; [exact Hin | | exact Huniq].
    eapply eligible_url, He.
Qed.

Lemma populator_second_run_noop_witness :
  let run := compute_missing_face_metrics sample_token sample_scorer (py "src.jpg") in
  map call_for (calls (exec run sample_world)) = [cand_a; cand_b]
  /\ run (exec run sample_world) = (Ok tt, exec run sample_world).
Proof.
  cbv zeta. split; [vm_compute; reflexivity|].
  apply (populator_second_run_noop sample_token sample_scorer sample_scorer (py "src.jpg")
           sample_world).
Defined.

(** C3: the populator returns without raising; every call of a run the
    scorer answers by raising leaves the error marker as the metrics of
    the candidate it was made for; and the loop goes on to the end, since
    every eligible candidate of the record has metrics when the run
    ends. *)
Theorem scorer_failure_recorded (NO_IMAGE_TOKEN : str)
    (compare_faces : str -> str -> outcome (gmap string pyval))
    (src : str) (w : world) :
  let w1 := exec (compute_missing_face_metrics NO_IMAGE_TOKEN compare_faces src) w in
  value (compute_missing_face_metrics NO_IMAGE_TOKEN compare_faces src) w = Ok tt
  /\ (exists ks,
        calls w1 = calls w ++ ks
        /\ Forall (fun k =>
             In (call_for k) (or_nil (candidates (disk w)))
             /\ forall e, answer compare_faces k = Raise e ->
                  face_of (disk w1) (url_of (call_for k)) = Some error_metrics) ks)
  /\ forall c, In c (or_nil (candidates (disk w))) ->
       eligible NO_IMAGE_TOKEN c = true ->
       has_face (disk w1) (url_of c) = true.
Proof.
  cbv zeta. unfold exec, value.
  rewrite (compute_missing_face_metrics_run NO_IMAGE_TOKEN compare_faces src w).
  cbn [fst snd].
  split; [reflexivity|]. split.
  - destruct (populate_calls NO_IMAGE_TOKEN compare_faces src
                (or_nil (candidates (disk w))) w) as (ks & Hcalls & Hks).
    { intros c' Hin' He'. now apply known_own with NO_IMAGE_TOKEN. }
    exists ks. split; [exact Hcalls|].
    eapply List.Forall_impl; [|exact Hks]. intros k (Hin & _ & _ & _ & Hface).
    split; [exact Hin|]. intros e He. rewrite Hface. unfold stored_metrics.
    now rewrite He.
  - intros c Hin He. apply populate_complete; [|exact Hin | exact He].
    intros c' Hin' He'. now apply known_own with NO_IMAGE_TOKEN.
Qed.

Example populator_sample :
  let w1 := exec (compute_missing_face_metrics sample_token sample_scorer (py "src.jpg"))
              sample_world in
  map call_for (calls w1) = [cand_a; cand_b]
  /\ face_of (disk w1) (py "in/a") = Some {[ "sigmoid"%string := VNum (95 # 100) ]}
  /\ face_of (disk w1) (py "in/b") = Some error_metrics
  /\ face_of (disk w1) (py "in/c") = None
  /\ face_of (disk w1) (py "in/d") = Some {[ "sigmoid"%string := VNum (99 # 100) ]}.
Proof. cbv zeta. repeat split; vm_compute; reflexivity. Qed.

Lemma scorer_failure_recorded_witness :
  answer sample_scorer (call_of (py "src.jpg") cand_b) = Raise ScorerFailure
  /\ face_of
       (disk (exec (compute_missing_face_metrics sample_token sample_scorer (py "src.jpg"))
                sample_world))
       (url_of cand_b)
     = Some error_metrics.
Proof.
  split; [reflexivity|].
  destruct (scorer_failure_recorded sample_token sample_scorer (py "src.jpg") sample_world)
    as (_ & (ks & Hcalls & Hks) & _).
  assert (Hin : In (call_of (py "src.jpg") cand_b) ks).
  { change ks with ([] ++ ks). change [] with (calls sample_world) at 1.
    rewrite <- Hcalls. vm_compute. right. left. reflexivity. }
  rewrite List.Forall_forall in Hks.
  exact (proj2 (Hks _ Hin) ScorerFailure eq_refl).
Defined.

(** ** The orchestrator *)

Section Orchestrator.
Variable table : N -> option str.
Variable NO_IMAGE_TOKEN : str.
Variable compare_faces : str -> str -> outcome (gmap string pyval).
Variable select_best_candidate : person -> option candidate.
Variable parse_float : str -> option Q.

Abbreviation run :=
  (run_matcher table NO_IMAGE_TOKEN compare_faces select_best_candidate parse_float).
Abbreviation populated w src :=
  (exec (compute_missing_face_metrics NO_IMAGE_TOKEN compare_faces src) w).

Lemma run_matcher_guard (w : world) :
  is_nil (or_nil (source_images (disk w))) || is_nil (or_nil (candidates (disk w))) = true ->
  run w = (Ok (no_match_result (disk w)), w).
Proof.
  intros H. unfold run_matcher, bind, load_person. cbn [disk]. rewrite H. reflexivity.
Qed.

(** Past the guard: populate, select, read the score, classify. *)
Lemma run_matcher_main (w : world) (src : str) (rest : list str) :
  or_nil (source_images (disk w)) = src :: rest ->
  or_nil (candidates (disk w)) <> [] ->
  run w
  = match select_best_candidate (disk (populated w src)) with
    | None => (Ok (no_match_result (disk w)), populated w src)
    | Some best =>
        match py_float parse_float
                (get_or (or_empty_dict (face best) !! "sigmoid"%string) (VNum 0)) with
        | Ok sig =>
            (Ok (result (VStr (or_empty (query_name (disk w))))
                   (opt_val (profile_url best)) (round4 sig)
                   (classify_name_status table (Some (or_empty (query_name (disk w))))
                      (Some (or_empty (name best))) FUZZY_MIN)),
             populated w src)
        | Raise e => (Raise e, populated w src)
        end
    end.
Proof.
  intros Hs Hc. unfold run_matcher, exec.
  unfold bind at 1. unfold load_person at 1. cbn [disk].
  rewrite Hs. destruct (or_nil (candidates (disk w))) as [|c cs]; [contradiction|].
  cbn [is_nil orb first_item]. unfold bind at 1, lift at 1.
  unfold bind at 1.
  rewrite (compute_missing_face_metrics_run NO_IMAGE_TOKEN compare_faces src w).
  cbn [snd]. unfold bind at 1, pick_best_candidate, bind, load_person, ret. cbn [disk].
  destruct (select_best_candidate _) as [best|]; [|reflexivity].
  unfold lift. destruct (py_float _ _); reflexivity.
Qed.

Lemma result_fields (nm url : pyval) (sim : Q) (status : str) :
  dom (result nm url sim status) = payload_keys
  /\ result nm url sim status !! "name"%string = Some nm
  /\ result nm url sim status !! "linkedin_url"%string = Some url
  /\ result nm url sim status !! "image_similarity"%string = Some (VNum sim)
  /\ result nm url sim status !! "match_status"%string = Some (VStr status).
Proof. repeat split; vm_compute; reflexivity. Qed.

Lemma classify_name_status_values (q b : option str) (t : Z) :
  classify_name_status table q b t = MATCHED
  \/ classify_name_status table q b t = PROBABLE
  \/ classify_name_status table q b t = NO_MATCH.
Proof.
  unfold classify_name_status.
  destruct (is_exact_name table q b); [now left|].
  destruct (Qle_bool _ _); [right; now left | right; now right].
Qed.

Lemma round4_decimals (x : Q) : exists n : Z, (round4 x == n # 10000)%Q.
Proof. unfold round4. eexists. apply Qred_correct. Qed.

Lemma guard_false (w : world) :
  is_nil (or_nil (source_images (disk w))) || is_nil (or_nil (candidates (disk w))) = false ->
  (exists src rest, or_nil (source_images (disk w)) = src :: rest)
  /\ or_nil (candidates (disk w)) <> [].
Proof.
  intros H. apply orb_false_iff in H. destruct H as [H1 H2].
  destruct (or_nil (source_images (disk w))); [discriminate|].
  destruct (or_nil (candidates (disk w))); [discriminate|].
  split; [eauto | discriminate].
Qed.
End Orchestrator.

(** C4: with no source image or no candidate the orchestrator returns the
    [no_match] payload with similarity 0.0, and the world is as before:
    nothing was scored and nothing written. *)
Theorem run_matcher_short_circuit (table : N -> option str) (NO_IMAGE_TOKEN : str)
    (compare_faces : str -> str -> outcome (gmap string pyval))
    (select_best_candidate : person -> option candidate)
    (parse_float : str -> option Q) (w : world) :
  or_nil (source_images (disk w)) = [] \/ or_nil (candidates (disk w)) = [] ->
  let res := no_match_result (disk w) in
  run_matcher table NO_IMAGE_TOKEN compare_faces select_best_candidate parse_float w
  = (Ok res, w)
  /\ res !! "match_status"%string = Some (VStr (py "no_match"))
  /\ res !! "image_similarity"%string = Some (VNum 0)
  /\ res !! "linkedin_url"%string = Some (VStr (py "no_match"))
  /\ res !! "name"%string = Some (opt_val (query_name (disk w))).
Proof.
  intros H. cbv zeta. split.
  - apply run_matcher_guard. destruct H as [-> | ->]; [reflexivity | apply orb_true_r].
  - unfold no_match_result.
    destruct (result_fields (opt_val (query_name (disk w))) (VStr (py "no_match")) 0
                (py "no_match")) as (_ & H1 & H2 & H3 & H4).
    auto.
Qed.

Lemma run_matcher_short_circuit_witness :
  or_nil (source_images (disk no_source_world)) = []
  /\ or_nil (candidates (disk no_source_world)) <> []
  /\ run_matcher latin1_table sample_token sample_scorer select_best parse_decimal
       no_source_world
     = (Ok (no_match_result (disk no_source_world)), no_source_world).
Proof.
  split; [reflexivity|]. split; [discriminate|].
  apply (run_matcher_short_circuit latin1_table sample_token sample_scorer select_best
           parse_decimal no_source_world).
  left. reflexivity.
Defined.

(** C5, as the code has it: every payload the orchestrator returns has
    exactly the keys [name], [linkedin_url], [image_similarity] and
    [match_status]; the similarity is a number with four decimal digits;
    the status is one of the strings "matched", "Probable Match (Fuzzy
    Name)" and "no_match". *)
Theorem run_matcher_payload (table : N -> option str) (NO_IMAGE_TOKEN : str)
    (compare_faces : str -> str -> outcome (gmap string pyval))
    (select_best_candidate : person -> option candidate)
    (parse_float : str -> option Q) (w w' : world) (res : gmap string pyval) :
  run_matcher table NO_IMAGE_TOKEN compare_faces select_best_candidate parse_float w
  = (Ok res, w') ->
  dom res = payload_keys
  /\ (exists q, res !! "image_similarity"%string = Some (VNum q)
                /\ exists n : Z, (q == n # 10000)%Q)
  /\ (exists st, res !! "match_status"%string = Some (VStr st)
                 /\ (st = py "matched" \/ st = py "Probable Match (Fuzzy Name)"
                     \/ st = py "no_match")).
Proof.
  intros Hrun.
  assert (Hno : forall d, let r := no_match_result d in
            dom r = payload_keys
            /\ (exists q, r !! "image_similarity"%string = Some (VNum q)
                          /\ exists n : Z, (q == n # 10000)%Q)
            /\ (exists st, r !! "match_status"%string = Some (VStr st)
                           /\ (st = py "matched" \/ st = py "Probable Match (Fuzzy Name)"
                               \/ st = py "no_match"))).
  { intros d. cbv zeta. unfold no_match_result.
    destruct (result_fields (opt_val (query_name d)) (VStr (py "no_match")) 0
                (py "no_match")) as (H0 & _ & _ & H3 & H4).
    split; [exact H0|]. split.
    - exists 0%Q. split; [exact H3|]. exists 0%Z. reflexivity.
    - exists (py "no_match"). split; [exact H4|]. right. now right. }
  destruct (is_nil (or_nil (source_images (disk w)))
            || is_nil (or_nil (candidates (disk w)))) eqn:Hg.
  - rewrite run_matcher_guard in Hrun by exact Hg.
    injection Hrun as <- _. apply Hno.
  - destruct (guard_false w Hg) as [(src & rest & Hs) Hc].
    rewrite (run_matcher_main _ _ _ _ _ w src rest Hs Hc) in Hrun.
    destruct (select_best_candidate _) as [best|].
    + destruct (py_float _ _) as [sig|e]; [|discriminate].
      injection Hrun as <- _.
      match goal with
      | |- context [result ?a ?b ?c ?d] =>
          destruct (result_fields a b c d) as (H0 & _ & _ & H3 & H4)
      end.
      split; [exact H0|]. split.
      * eexists. split; [exact H3 | apply round4_decimals].
      * eexists. split; [exact H4 | apply classify_name_status_values].
    + injection Hrun as <- _. apply Hno.
Qed.

Lemma run_matcher_payload_witness :
  field "match_status"
    (value (run_matcher latin1_table sample_token sample_scorer select_best parse_decimal)
       sample_world)
  = Some (VStr (py "Probable Match (Fuzzy Name)"))
  /\ dom (match value (run_matcher latin1_table sample_token sample_scorer select_best
                         parse_decimal) sample_world with
          | Ok res => res
          | Raise _ => ∅
          end) = payload_keys.
Proof.
  split; [vm_compute; reflexivity|].
  eapply (run_matcher_payload latin1_table sample_token sample_scorer select_best
            parse_decimal sample_world
            (exec (run_matcher latin1_table sample_token sample_scorer select_best
                     parse_decimal) sample_world)).
  unfold value, exec. reflexivity.
Defined.

(** C5, as stated, fails: for a winner whose name is close to the query
    name but not equal to it, the status is the string "Probable Match
    (Fuzzy Name)", which is none of [matched], [probable_match_fuzzy_name]
    and [no_match]. *)
Lemma match_status_literal_differs :
  let status :=
    field "match_status"
      (value (run_matcher latin1_table sample_token sample_scorer select_best
                parse_decimal) sample_world) in
  status = Some (VStr (py "Probable Match (Fuzzy Name)"))
  /\ ~ (status = Some (VStr (py "matched"))
        \/ status = Some (VStr (py "probable_match_fuzzy_name"))
        \/ status = Some (VStr (py "no_match"))).
Proof.
  cbv zeta. split; [vm_compute; reflexivity|].
  intros [H|[H|H]]; vm_compute in H; discriminate.
Qed.






(** * Further properties *)

(** ** Stripping *)

Section Strip.
Variable p : N -> bool.

Lemma rstrip_by_snoc (s : str) (c : N) :
  rstrip_by p (s ++ [c]) = if p c then rstrip_by p s else s ++ [c].
Proof.
  induction s as [|a s IH]; simpl.
  - destruct (p c); reflexivity.
  - rewrite IH. destruct (p c).
    + reflexivity.
    + destruct (s ++ [c]) eqn:E; [destruct s; discriminate | reflexivity].
Qed.

Lemma lstrip_by_head (s : str) (c : N) (r : str) :
  lstrip_by p s = c :: r -> p c = false.
Proof.
  induction s as [|a s IH]; simpl; [discriminate|].
  destruct (p a) eqn:E; [exact IH|]. intros H. injection H as -> _. exact E.
Qed.

Lemma lstrip_by_suffix (s : str) : exists pre, s = pre ++ lstrip_by p s.
Proof.
  induction s as [|a s [pre IH]]; simpl; [exists []; reflexivity|].
  destruct (p a); [|exists []; reflexivity].
  exists (a :: pre). simpl. now rewrite <- IH.
Qed.

Lemma rstrip_by_prefix (s : str) : exists post, s = rstrip_by p s ++ post.
Proof.
  induction s as [|a s [post IH]]; simpl; [exists []; reflexivity|].
  destruct (rstrip_by p s) as [|b r] eqn:E.
  - destruct (p a); [exists (a :: s) | exists s]; reflexivity.
  - exists post. simpl. f_equal. exact IH.
Qed.

Lemma rstrip_by_head (s : str) (c : N) (r : str) :
  rstrip_by p s = c :: r -> exists r0, s = c :: r0.
Proof.
  destruct s as [|a s]; simpl; [discriminate|].
  destruct (rstrip_by p s); [destruct (p a)|]; intros H; try discriminate;
    injection H as -> _; eauto.
Qed.

Lemma rstrip_by_last (s r : str) (c : N) :
  rstrip_by p s = r ++ [c] -> p c = false.
Proof.
  revert r. induction s as [|a s IH]; intros r; simpl.
  - destruct r; discriminate.
  - destruct (rstrip_by p s) as [|b t] eqn:E.
    + destruct (p a) eqn:Ea; [destruct r; discriminate|].
      intros H. destruct r as [|x r]; [injection H as ->; exact Ea|].
      destruct r; discriminate.
    + intros H. destruct r as [|x r]; [discriminate|].
      injection H as _ H. eapply IH. exact H.
Qed.

Lemma lstrip_by_id (s : str) :
  (forall c r, s = c :: r -> p c = false) -> lstrip_by p s = s.
Proof.
  destruct s as [|a s]; intros H; [reflexivity|]. simpl.
  now rewrite (H a s eq_refl).
Qed.

Lemma rstrip_by_id (s : str) :
  (forall c r, s = r ++ [c] -> p c = false) -> rstrip_by p s = s.
Proof.
  induction s as [|a s IH] using rev_ind; intros H; [reflexivity|].
  rewrite rstrip_by_snoc. now rewrite (H a s eq_refl).
Qed.

Lemma strip_by_ends (s : str) : ends_ok (fun c => negb (p c)) (strip_by p s).
Proof.
  unfold strip_by. split; intros c E.
  - destruct (rstrip_by p (lstrip_by p s)) as [|x r] eqn:E'; [discriminate|].
    injection E as ->.
    destruct (rstrip_by_head _ _ _ E') as [r0 E0].
    apply lstrip_by_head in E0. now rewrite E0.
  - apply last_Some in E. destruct E as [r E].
    apply rstrip_by_last in E. now rewrite E.
Qed.

Lemma strip_by_id (s : str) :
  ends_ok (fun c => negb (p c)) s -> strip_by p s = s.
Proof.
  intros [H1 H2]. unfold strip_by.
  rewrite lstrip_by_id.
  - apply rstrip_by_id. intros c r E. apply negb_true_iff. apply H2.
    rewrite E. apply last_snoc.
  - intros c r E. apply negb_true_iff. apply H1. now rewrite E.
Qed.

Lemma strip_by_sub (P : N -> Prop) (s : str) :
  Forall P s -> Forall P (strip_by p s).
Proof.
  intros H. unfold strip_by.
  destruct (lstrip_by_suffix s) as [pre E].
  destruct (rstrip_by_prefix (lstrip_by p s)) as [post E'].
  rewrite E in H. apply Forall_app in H. destruct H as [_ H].
  rewrite E' in H. apply Forall_app in H. tauto.
Qed.
End Strip.

Lemma lstrip_is_lstrip_by (s : str) : lstrip s = lstrip_by isspace s.
Proof. induction s as [|a s IH]; simpl; [reflexivity|]. now rewrite IH. Qed.

(** The two ways of writing [s.strip()] agree. *)
Lemma strip_is_strip_by (s : str) : strip s = strip_by isspace s.
Proof.
  unfold strip, strip_by. rewrite (lstrip_is_lstrip_by s).
  generalize (lstrip_by isspace s). clear s. intros s.
  induction s as [|a s IH] using rev_ind; [reflexivity|].
  rewrite rev_app_distr, rstrip_by_snoc. simpl.
  destruct (isspace a); [exact IH|]. simpl. now rewrite rev_involutive.
Qed.

(** ** _slugify *)

Lemma sub_runs_chars (P : N -> Prop) (cls : N -> bool) (repl : N) (b : bool) (s : str) :
  P repl -> Forall (fun c => cls c = false -> P c) s ->
  Forall P (sub_runs cls repl b s).
Proof.
  intros Hr H. revert b. induction H as [|c s Hc Hs IH]; intros b; simpl; [constructor|].
  destruct (cls c) eqn:E.
  - destruct b; [apply IH | constructor; [exact Hr | apply IH]].
  - constructor; [now apply Hc | apply IH].
Qed.

Lemma sub_runs_in_run_head (cls : N -> bool) (repl : N) (s : str) (c : N) :
  head (sub_runs cls repl true s) = Some c -> cls c = false.
Proof.
  induction s as [|a s IH]; simpl; [discriminate|].
  destruct (cls a) eqn:E; [exact IH|]. simpl. intros H. injection H as <-. exact E.
Qed.

Lemma no_double_dash_cons (a : N) (s : str) :
  no_double_dash (a :: s) = true <->
  (forall b, head s = Some b -> is_dash a && is_dash b = false)
  /\ no_double_dash s = true.
Proof.
  simpl. rewrite andb_true_iff. destruct s as [|b s].
  - split; [intros [_ H]; split; [discriminate | exact H] | intros [_ H]; auto].
  - rewrite negb_true_iff. split; intros [H1 H2]; split; try exact H2.
    + intros b' E. injection E as <-. exact H1.
    + now apply H1.
Qed.

Lemma sub_runs_no_double_dash (b : bool) (s : str) :
  no_double_dash (sub_runs is_dash 45 b s) = true.
Proof.
  revert b. induction s as [|a s IH]; intros b; [reflexivity|].
  cbn [sub_runs]. destruct (is_dash a) eqn:E.
  - destruct b; [apply IH|]. apply no_double_dash_cons. split; [|apply IH].
    intros c Hc. apply sub_runs_in_run_head in Hc. rewrite Hc. apply andb_false_r.
  - apply no_double_dash_cons. split; [|apply IH]. intros c _. now rewrite E.
Qed.

Lemma no_double_dash_app (x y : str) :
  no_double_dash (x ++ y) = true ->
  no_double_dash x = true /\ no_double_dash y = true.
Proof.
  induction x as [|a x IH]; [auto|].
  rewrite <- app_comm_cons, !no_double_dash_cons. intros [H1 H2].
  destruct (IH H2) as [Hx Hy]. repeat split; try assumption.
  intros b Hb. apply H1. destruct x; [discriminate | exact Hb].
Qed.

Lemma strip_by_no_double_dash (p : N -> bool) (s : str) :
  no_double_dash s = true -> no_double_dash (strip_by p s) = true.
Proof.
  intros H. unfold strip_by.
  destruct (lstrip_by_suffix p s) as [pre E].
  destruct (rstrip_by_prefix p (lstrip_by p s)) as [post E'].
  rewrite E in H. apply no_double_dash_app in H. destruct H as [_ H].
  rewrite E' in H. apply no_double_dash_app in H. tauto.
Qed.

Lemma ends_ok_weaken (p q : N -> bool) (P : N -> Prop) (s : str) :
  Forall P s -> (forall c, P c -> p c = true -> q c = true) ->
  ends_ok p s -> ends_ok q s.
Proof.
  intros HP Hpq [H1 H2]. rewrite List.Forall_forall in HP.
  split; intros c E; apply Hpq; auto; apply HP.
  - destruct s; [discriminate|]. injection E as ->. now left.
  - apply last_Some in E. destruct E as [r ->]. apply in_or_app. right. now left.
Qed.

Lemma is_alnum_cases (c : N) :
  is_alnum c = true -> 97 <= c <= 122 \/ 48 <= c <= 57.
Proof. unfold is_alnum. intros H. bool_hyps; lia. Qed.

Lemma is_alnum_not_space (c : N) : is_alnum c = true -> isspace c = false.
Proof.
  intros H. apply is_alnum_cases in H.
  destruct (isspace c) eqn:E; [|reflexivity].
  unfold isspace in E. bool_hyps; lia.
Qed.

Lemma slug_char_cases (c : N) :
  is_alnum c = true \/ c = 45 -> 97 <= c <= 122 \/ 48 <= c <= 57 \/ c = 45.
Proof. intros [H | ->]; [apply is_alnum_cases in H; lia | lia]. Qed.

Lemma slug_shape_image : slug_shape (py "image").
Proof.
  split; [discriminate|]. split; [repeat constructor|].
  split; [|reflexivity]. split; intros c E; vm_compute in E; injection E as <-; reflexivity.
Qed.

Section Slugify.
Variable lower_nonascii : str -> nat -> N -> str.

Lemma slugify_has_shape (s : option str) : slug_shape (_slugify lower_nonascii s).
Proof.
  unfold _slugify.
  set (s1 := str_lower lower_nonascii (strip (or_empty s))).
  set (s2 := sub_runs (fun c => negb (is_alnum c)) 45 false s1).
  set (r := strip_by is_dash (sub_runs is_dash 45 false s2)).
  destruct (truthy r) eqn:Hr; [|apply slug_shape_image].
  assert (H2 : Forall (fun c => is_alnum c = true \/ c = 45) s2).
  { apply sub_runs_chars; [now right|]. apply List.Forall_forall. intros c _ H.
    left. now apply negb_false_iff in H. }
  assert (Hc : Forall (fun c => is_alnum c = true \/ c = 45) r).
  { apply strip_by_sub, sub_runs_chars; [now right|].
    eapply List.Forall_impl; [|exact H2]. auto. }
  split; [destruct r; [discriminate | discriminate]|].
  split; [exact Hc|]. split.
  - eapply ends_ok_weaken; [exact Hc | | apply strip_by_ends].
    intros c [H | ->] Hd; [exact H | discriminate].
  - apply strip_by_no_double_dash, sub_runs_no_double_dash.
Qed.

Lemma lower_from_fixed (whole : str) (i : nat) (s : str) :
  Forall (fun c => is_alnum c = true \/ c = 45) s ->
  lower_from lower_nonascii whole i s = s.
Proof.
  intros H. revert i. induction H as [|c s Hc Hs IH]; intros i; [reflexivity|].
  simpl. rewrite IH. apply slug_char_cases in Hc.
  replace (c <? 128) with true by (symmetry; apply N.ltb_lt; lia).
  unfold lower_cp. cmp_cases.
Qed.

Lemma sub_runs_fixed (cls : N -> bool) (b : bool) (s : str) :
  Forall (fun c => cls c = true -> c = 45) s ->
  no_double_dash s = true ->
  (b = true -> forall c, head s = Some c -> cls c = false) ->
  sub_runs cls 45 b s = s.
Proof.
  intros H. revert b. induction H as [|c s Hc Hs IH]; intros b Hd Hb; [reflexivity|].
  apply no_double_dash_cons in Hd. destruct Hd as [Hd1 Hd2].
  cbn [sub_runs]. destruct (cls c) eqn:E.
  - destruct b; [rewrite (Hb eq_refl c eq_refl) in E; discriminate|].
    rewrite (Hc eq_refl). f_equal. apply IH; [exact Hd2|].
    intros _ c' Hc'. destruct (cls c') eqn:E'; [|reflexivity].
    specialize (Hd1 c' Hc'). rewrite (Hc eq_refl) in Hd1.
    destruct s as [|x s]; [discriminate|]. injection Hc' as ->.
    inversion Hs as [|? ? Hx _]; subst. rewrite (Hx E') in Hd1. discriminate.
  - f_equal. apply IH; [exact Hd2 | discriminate].
Qed.

(** X2: [_slugify] is idempotent: a slug is its own slug. *)
Theorem slugify_idempotent (s : option str) :
  _slugify lower_nonascii (Some (_slugify lower_nonascii s))
  = _slugify lower_nonascii s.
Proof.
  pose proof (slugify_has_shape s) as H. revert H.
  generalize (_slugify lower_nonascii s). intros y (Hne & Hc & He & Hd).
  unfold _slugify. cbn [or_empty].
  rewrite strip_is_strip_by, (strip_by_id isspace y).
  2:{ eapply ends_ok_weaken; [exact Hc | | exact He].
      intros c _ H. rewrite (is_alnum_not_space c H). reflexivity. }
  unfold str_lower. rewrite lower_from_fixed by exact Hc.
  rewrite (sub_runs_fixed (fun c => negb (is_alnum c)) false y).
  - rewrite (sub_runs_fixed is_dash false y).
    + rewrite strip_by_id.
      * destruct y; [contradiction | reflexivity].
      * eapply ends_ok_weaken; [exact Hc | | exact He].
        intros c _ H. apply is_alnum_cases in H. unfold is_dash. cmp_cases.
    + eapply List.Forall_impl; [|exact Hc]. intros c _ H. unfold is_dash in H. cmp_cases.
    + exact Hd.
    + discriminate.
  - eapply List.Forall_impl; [|exact Hc]. intros c [H | ->] H'; [|reflexivity].
    rewrite H in H'. discriminate.
  - exact Hd.
  - discriminate.
Qed.

End Slugify.

Lemma no_double_dash_contains (s : str) :
  no_double_dash s = true -> contains (py "--") s = false.
Proof.
  induction s as [|a s IH]; [reflexivity|]. intros H.
  apply no_double_dash_cons in H. destruct H as [H1 H2].
  cbn [contains]. rewrite (IH H2), orb_false_r.
  destruct s as [|b s]; [simpl; now rewrite andb_false_r|].
  specialize (H1 b eq_refl). unfold is_dash in H1. change (py "--") with [45; 45].
  cbn [starts_with]. rewrite andb_true_r, (N.eqb_sym 45 a), (N.eqb_sym 45 b).
  exact H1.
Qed.

(** X1: whatever its input, [_slugify] returns a non-empty string made
    of lower-case letters, digits and dashes, which neither begins nor
    ends with a dash and holds no two dashes in a row. *)
Theorem slugify_shape (lower_nonascii : str -> nat -> N -> str) (s : option str) :
  let slug := _slugify lower_nonascii s in
  slug <> []
  /\ Forall (fun c => 97 <= c <= 122 \/ 48 <= c <= 57 \/ c = 45) slug
  /\ head slug <> Some 45
  /\ last slug <> Some 45
  /\ contains (py "--") slug = false.
Proof.
  cbv zeta. destruct (slugify_has_shape lower_nonascii s) as (Hne & Hc & [Hh Hl] & Hd).
  split; [exact Hne|]. split.
  { eapply List.Forall_impl; [|exact Hc]. intros c. apply slug_char_cases. }
  split; [intros E; now apply Hh in E|].
  split; [intros E; now apply Hl in E|].
  now apply no_double_dash_contains.
Qed.

(** ** _title_to_name *)

Lemma sep_at_app (x rest : str) : sep_at x = true -> sep_at (x ++ rest) = true.
Proof.
  destruct x as [|a [|b [|c x]]]; simpl; try discriminate. auto.
Qed.

Lemma has_sep_app_l (x rest : str) : has_sep (x ++ rest) = false -> has_sep x = false.
Proof.
  induction x as [|a x IH]; [reflexivity|].
  rewrite <- app_comm_cons. cbn [has_sep]. rewrite !orb_false_iff.
  intros [H1 H2]. split; [|now apply IH].
  destruct (sep_at (a :: x)) eqn:E; [|reflexivity].
  apply (sep_at_app _ rest) in E. rewrite <- app_comm_cons in E. congruence.
Qed.

Lemma has_sep_app_r (pre x : str) : has_sep (pre ++ x) = false -> has_sep x = false.
Proof.
  induction pre as [|a pre IH]; [auto|].
  rewrite <- app_comm_cons. cbn [has_sep]. rewrite orb_false_iff. intros [_ H]. auto.
Qed.

Lemma before_sep_prefix (s : str) : exists rest, s = before_sep s ++ rest.
Proof.
  induction s as [|a s [rest IH]]; [exists []; reflexivity|].
  cbn [before_sep]. destruct (sep_at (a :: s)); [exists (a :: s); reflexivity|].
  exists rest. simpl. now rewrite <- IH.
Qed.

(** What precedes the first separator holds none. *)
Lemma before_sep_clean (s : str) : has_sep (before_sep s) = false.
Proof.
  induction s as [|a s IH]; [reflexivity|].
  cbn [before_sep]. destruct (sep_at (a :: s)) eqn:E; [reflexivity|].
  cbn [has_sep]. rewrite IH, orb_false_r.
  destruct (sep_at (a :: before_sep s)) eqn:E'; [|reflexivity].
  destruct (before_sep_prefix s) as [rest Hs].
  apply (sep_at_app _ rest) in E'. rewrite <- app_comm_cons, <- Hs in E'. congruence.
Qed.

Lemma before_sep_id (s : str) : has_sep s = false -> before_sep s = s.
Proof.
  induction s as [|a s IH]; [reflexivity|].
  cbn [has_sep before_sep]. rewrite orb_false_iff. intros [-> H]. now rewrite IH.
Qed.

Lemma strip_clean (s : str) : has_sep s = false -> has_sep (strip s) = false.
Proof.
  intros H. rewrite strip_is_strip_by. unfold strip_by.
  destruct (lstrip_by_suffix isspace s) as [pre E].
  destruct (rstrip_by_prefix isspace (lstrip_by isspace s)) as [post E'].
  rewrite E in H. apply has_sep_app_r in H. rewrite E' in H.
  now apply has_sep_app_l in H.
Qed.

Lemma strip_ends (s : str) : ends_ok (fun c => negb (isspace c)) (strip s).
Proof. rewrite strip_is_strip_by. apply strip_by_ends. Qed.

Lemma strip_fixed (s : str) : ends_ok (fun c => negb (isspace c)) s -> strip s = s.
Proof. intros H. rewrite strip_is_strip_by. now apply strip_by_id. Qed.

Lemma title_to_name_facts (title : option str) :
  ends_ok (fun c => negb (isspace c)) (_title_to_name title)
  /\ has_sep (_title_to_name title) = false
  /\ (strip (or_empty title) = [] -> _title_to_name title = [])
  /\ (has_sep (strip (or_empty title)) = false ->
      _title_to_name title = strip (or_empty title)).
Proof.
  unfold _title_to_name.
  destruct (strip (or_empty title)) as [|a t] eqn:E; cbn [truthy negb].
  - repeat split; try discriminate; reflexivity.
  - split; [apply strip_ends|]. split; [apply strip_clean, before_sep_clean|].
    split; [discriminate|]. intros H. rewrite before_sep_id by exact H.
    rewrite <- E. apply strip_fixed. apply strip_ends.
Qed.

(** X3: the name [_title_to_name] reads off a title neither begins nor
    ends with white space and holds no dash set between two white-space
    characters; it is the empty string for an absent, empty or blank
    title, and the stripped title itself when that holds no such dash. *)
Theorem title_to_name_shape (title : option str) :
  let nm := _title_to_name title in
  (forall c, head nm = Some c -> isspace c = false)
  /\ (forall c, last nm = Some c -> isspace c = false)
  /\ has_sep nm = false
  /\ (strip (or_empty title) = [] -> nm = [])
  /\ (has_sep (strip (or_empty title)) = false -> nm = strip (or_empty title)).
Proof.
  cbv zeta. destruct (title_to_name_facts title) as ([Hh Hl] & Hs & He & Hk).
  split; [intros c E; apply Hh in E; now apply negb_true_iff in E|].
  split; [intros c E; apply Hl in E; now apply negb_true_iff in E|].
  auto.
Qed.

Lemma title_to_name_shape_witness :
  strip (or_empty (Some (py "  Jane-Marie Doe  "))) = py "Jane-Marie Doe"
  /\ _title_to_name (Some (py "  Jane-Marie Doe  ")) = py "Jane-Marie Doe"
  /\ _title_to_name (Some (py "   ")) = [].
Proof.
  split; [vm_compute; reflexivity|]. split.
  - transitivity (strip (or_empty (Some (py "  Jane-Marie Doe  "))));
      [|vm_compute; reflexivity].
    apply (title_to_name_shape (Some (py "  Jane-Marie Doe  "))).
    vm_compute. reflexivity.
  - apply (title_to_name_shape (Some (py "   "))). vm_compute. reflexivity.
Defined.

(** X4: [_title_to_name] is idempotent: reading a name off a name
    already read gives it back. *)
Theorem title_to_name_idempotent (title : option str) :
  _title_to_name (Some (_title_to_name title)) = _title_to_name title.
Proof.
  destruct (title_to_name_facts title) as (He & Hs & _ & _).
  destruct (title_to_name_facts (Some (_title_to_name title))) as (_ & _ & _ & H).
  cbn [or_empty] in H. rewrite (strip_fixed _ He) in H. now apply H.
Qed.

(** ** _profile_handle and _normalize_profile_url *)

Lemma starts_with_app (n h x : str) :
  starts_with n h = true -> starts_with n (h ++ x) = true.
Proof.
  revert h. induction n as [|a n IH]; intros h; [reflexivity|].
  destruct h as [|b h]; simpl; [discriminate|].
  rewrite !andb_true_iff. intros [H1 H2]. auto.
Qed.

Lemma contains_app_l (n h x : str) :
  contains n h = true -> contains n (h ++ x) = true.
Proof.
  induction h as [|b h IH]; simpl.
  - rewrite orb_false_r. intros H. destruct n; [|discriminate].
    destruct x; reflexivity.
  - rewrite !orb_true_iff. intros [H | H].
    + left. now apply (starts_with_app n (b :: h) x).
    + right. now apply IH.
Qed.

Lemma contains_app_r (n h x : str) :
  contains n h = true -> contains n (x ++ h) = true.
Proof.
  intros H. induction x as [|b x IH]; [exact H|].
  simpl. rewrite IH. apply orb_true_r.
Qed.

Lemma slug_shape_no_slash (s : str) :
  slug_shape s -> s <> [] /\ Forall (fun c => is_slash c = false) s.
Proof.
  intros (Hne & Hc & _). split; [exact Hne|].
  eapply List.Forall_impl; [|exact Hc]. intros c H. apply slug_char_cases in H.
  unfold is_slash. cmp_cases.
Qed.

(** X5: the handle [_profile_handle] returns, whether cut out of the path
    or made by [_slugify], is never empty and holds no slash, whatever
    [urlparse] returns or raises. *)
Theorem profile_handle_component (lower_nonascii : str -> nat -> N -> str)
    (urlparse : str -> outcome parsed_url) (url : str) :
  _profile_handle lower_nonascii urlparse url <> []
  /\ Forall (fun c => is_slash c = false) (_profile_handle lower_nonascii urlparse url).
Proof.
  pose proof (slug_shape_no_slash _ (slugify_has_shape lower_nonascii (Some url))) as Hs.
  unfold _profile_handle. destruct (urlparse url) as [p|e]; [|exact Hs].
  unfold path_parts.
  pose proof (split_by_pieces is_slash (path p) [] (List.Forall_nil _)) as Hp.
  destruct (split_by is_slash (path p) []) as [|p0 [|p1 rest]]; try exact Hs.
  destruct (str_eqb p0 (py "in")); [|exact Hs].
  inversion Hp as [|? ? _ Hp']; subst. inversion Hp' as [|? ? H1 _]; subst. exact H1.
Qed.

(** X6: whenever [_normalize_profile_url] returns an address, the host
    [urlparse] found holds "linkedin.com" and so does the address
    returned; when [urlparse] raises, nothing is returned. *)
Theorem normalize_profile_url_linkedin (urlparse : str -> outcome parsed_url)
    (u r : str) :
  _normalize_profile_url urlparse u = Some r ->
  contains (py "linkedin.com") r = true
  /\ exists p, urlparse u = Ok p /\ contains (py "linkedin.com") (netloc p) = true.
Proof.
  unfold _normalize_profile_url. destruct (urlparse u) as [p|e]; [|discriminate].
  destruct (contains (py "linkedin.com") (netloc p)) eqn:Hn; [|discriminate].
  cbn [negb]. intros H. split; [|eauto].
  assert (Hfull : contains (py "linkedin.com")
                    (scheme p ++ py "://" ++ netloc p ++ path p) = true).
  { apply contains_app_r, contains_app_r, contains_app_l, Hn. }
  destruct (path_parts (path p)) as [|p0 [|p1 rest]];
    try (injection H as <-; exact Hfull).
  destruct (str_eqb p0 (py "in")); [|injection H as <-; exact Hfull].
  assert (E : r = py "https://www.linkedin.com/in/" ++ p1) by congruence.
  rewrite E. apply contains_app_l. vm_compute. reflexivity.
Qed.

Lemma normalize_profile_url_linkedin_witness :
  _normalize_profile_url sample_urlparse (py "https://uk.linkedin.com/in/jane-doe/?trk=x")
  = Some (py "https://www.linkedin.com/in/jane-doe")
  /\ contains (py "linkedin.com") (py "https://www.linkedin.com/in/jane-doe") = true.
Proof.
  split; [vm_compute; reflexivity|].
  apply (normalize_profile_url_linkedin sample_urlparse
           (py "https://uk.linkedin.com/in/jane-doe/?trk=x")).
  vm_compute. reflexivity.
Defined.

(** ** Sorting the tokens *)

Lemma str_leb_total (a b : str) : str_leb a b = false -> str_leb b a = true.
Proof.
  revert b. induction a as [|x a IH]; intros [|y b]; simpl; try discriminate; auto.
  destruct (N.ltb_spec x y); [discriminate|].
  destruct (N.ltb_spec y x); [reflexivity|]. apply IH.
Qed.

Lemma str_leb_antisym (a b : str) :
  str_leb a b = true -> str_leb b a = true -> a = b.
Proof.
  revert b. induction a as [|x a IH]; intros [|y b]; simpl; try discriminate; auto.
  destruct (N.ltb_spec x y); destruct (N.ltb_spec y x); try discriminate; try lia.
  intros H1 H2. f_equal; [lia | now apply IH].
Qed.

Lemma str_leb_trans (a b c : str) :
  str_leb a b = true -> str_leb b c = true -> str_leb a c = true.
Proof.
  revert b c. induction a as [|x a IH]; intros [|y b] [|z c]; simpl;
    try discriminate; auto.
  destruct (N.ltb_spec x y); destruct (N.ltb_spec y z);
    destruct (N.ltb_spec x z); destruct (N.ltb_spec y x);
    destruct (N.ltb_spec z y); destruct (N.ltb_spec z x);
    try discriminate; try lia; auto.
  apply IH.
Qed.

Lemma insert_sorted_pair (x y : str) (l : list str) :
  (if str_leb x y then x :: y :: l else y :: x :: l)
  = (if str_leb y x then y :: x :: l else x :: y :: l).
Proof.
  destruct (str_leb x y) eqn:E1; destruct (str_leb y x) eqn:E2; try reflexivity.
  - now rewrite (str_leb_antisym x y E1 E2).
  - apply str_leb_total in E1. congruence.
Qed.

Lemma insert_sorted_comm (x y : str) (l : list str) :
  insert_sorted x (insert_sorted y l) = insert_sorted y (insert_sorted x l).
Proof.
  induction l as [|e l IH]; simpl.
  - apply insert_sorted_pair.
  - destruct (str_leb y e) eqn:Ey; destruct (str_leb x e) eqn:Ex; simpl;
      rewrite ?Ex, ?Ey.
    + apply insert_sorted_pair.
    + destruct (str_leb x y) eqn:Exy; [|reflexivity].
      rewrite (str_leb_trans x y e Exy Ey) in Ex. discriminate.
    + destruct (str_leb y x) eqn:Eyx; [|reflexivity].
      rewrite (str_leb_trans y x e Eyx Ex) in Ey. discriminate.
    + now rewrite IH.
Qed.

Lemma insert_sorted_perm (x : str) (l : list str) :
  Permutation (insert_sorted x l) (x :: l).
Proof.
  induction l as [|e l IH]; simpl; [reflexivity|].
  destruct (str_leb x e); [reflexivity|].
  rewrite IH. apply perm_swap.
Qed.

Lemma sorted_perm (l : list str) : Permutation (sorted l) l.
Proof.
  induction l as [|x l IH]; simpl; [reflexivity|].
  unfold sorted in *. simpl. rewrite insert_sorted_perm. now constructor.
Qed.

(** Sorting forgets the order the tokens came in. *)
Lemma sorted_of_perm (l l' : list str) : Permutation l l' -> sorted l = sorted l'.
Proof.
  unfold sorted. induction 1; simpl.
  - reflexivity.
  - now f_equal.
  - apply insert_sorted_comm.
  - congruence.
Qed.

(** ** Scores of 100 *)

Lemma lcs_sym (a b : str) : lcs a b = lcs b a.
Proof.
  revert b. induction a as [|x a IHa]; intros b; [now rewrite lcs_nil_r|].
  induction b as [|y b IHb]; [reflexivity|].
  rewrite !lcs_cons, (N.eqb_sym y x), (IHa b), (IHa (y :: b)), IHb.
  destruct (x =? y); [reflexivity | apply Nat.max_comm].
Qed.

Lemma lcs_full (a b : str) :
  lcs a b = length a -> length a = length b -> a = b.
Proof.
  revert b. induction a as [|x a IH]; intros [|y b]; simpl length; try discriminate;
    [reflexivity|].
  rewrite lcs_cons. destruct (N.eqb_spec x y) as [->|Hne].
  - intros H1 H2. f_equal. apply IH; lia.
  - intros H1 H2. pose proof (lcs_le_l a (y :: b)). pose proof (lcs_le_r (x :: a) b).
    lia.
Qed.

Lemma ratio_sym (a b : str) : ratio a b = ratio b a.
Proof.
  unfold ratio, indel_normalized_similarity, indel_normalized_distance, indel_distance.
  now rewrite (lcs_sym a b), (Nat.add_comm (length a)).
Qed.

Lemma ratio_100 (a b : str) : (ratio a b == 100)%Q -> a = b.
Proof.
  unfold ratio, indel_normalized_similarity, indel_normalized_distance, indel_distance.
  pose proof (lcs_le_l a b) as Hl. pose proof (lcs_le_r a b) as Hr.
  destruct (length a + length b)%nat as [|n] eqn:Hm.
  - intros _. destruct a; [|discriminate]. destruct b; [reflexivity | discriminate].
  - intros H.
    assert (H0 : (Z.of_nat (S n - 2 * lcs a b) # Pos.of_nat (S n) == 0)%Q) by lra.
    unfold Qeq in H0. cbn [Qnum Qden] in H0.
    apply lcs_full; lia.
Qed.

Section Tokens.
Variable table : N -> option str.

Lemma name_tokens_pieces (a : option str) :
  Forall (fun t => t <> [] /\ Forall (fun c => isspace c = false) t) (name_tokens table a).
Proof. apply split_by_pieces. constructor. Qed.

Lemma join_name_tokens (a : option str) :
  join (py " ") (name_tokens table a) = normalize_name table a.
Proof.
  destruct (normalize_name_pieces table a) as [toks [Htoks E]].
  unfold name_tokens, split. rewrite E. change (py " ") with [32].
  rewrite split_by_join; [reflexivity | reflexivity |].
  eapply List.Forall_impl; [|exact Htoks]. intros t [Hne Ht]. split; [exact Hne|].
  eapply List.Forall_impl; [|exact Ht]. intros c. apply wordchar_not_space.
Qed.

Lemma join_tokens_inj (l l' : list str) :
  Forall (fun t => t <> [] /\ Forall (fun c => isspace c = false) t) l ->
  Forall (fun t => t <> [] /\ Forall (fun c => isspace c = false) t) l' ->
  join (py " ") l = join (py " ") l' -> l = l'.
Proof.
  intros H H' E. change (py " ") with [32] in E.
  rewrite <- (split_by_join isspace 32 l eq_refl H).
  rewrite <- (split_by_join isspace 32 l' eq_refl H'). now rewrite E.
Qed.

(** Rearranged tokens score 100. *)
Lemma name_similarity_perm (a b : option str) :
  Permutation (name_tokens table a) (name_tokens table b) ->
  (name_similarity table a b == 100)%Q.
Proof.
  intros H. unfold name_similarity, token_sort_ratio.
  fold (name_tokens table a). fold (name_tokens table b).
  rewrite (sorted_of_perm _ _ H). apply ratio_refl.
Qed.

Lemma same_tokens_exact (a b : option str) :
  name_tokens table a = name_tokens table b -> is_exact_name table a b = true.
Proof.
  intros E. apply is_exact_name_eq. rewrite <- !join_name_tokens. now rewrite E.
Qed.

Lemma name_similarity_sym_eq (a b : option str) :
  name_similarity table a b = name_similarity table b a.
Proof. unfold name_similarity, token_sort_ratio. apply ratio_sym. Qed.

Lemma name_similarity_bounds (a b : option str) :
  (0 <= name_similarity table a b <= 100)%Q.
Proof. unfold name_similarity, token_sort_ratio. apply ratio_range. Qed.
End Tokens.

(** ** Name matching, further *)

Lemma is_exact_name_sym (table : N -> option str) (a b : option str) :
  is_exact_name table a b = is_exact_name table b a.
Proof.
  unfold is_exact_name, str_eqb.
  destruct (bool_decide_reflect (normalize_name table a = normalize_name table b)) as [E|E].
  - symmetry. now apply bool_decide_eq_true.
  - symmetry. apply bool_decide_eq_false. congruence.
Qed.

(** X7: neither the similarity of two names nor the verdict of the
    classifier depends on which of the two names comes first. *)
Theorem name_match_symmetric (table : N -> option str) (a b : option str) (t : Z) :
  name_similarity table a b = name_similarity table b a
  /\ is_exact_name table a b = is_exact_name table b a
  /\ classify_name_status table a b t = classify_name_status table b a t.
Proof.
  split; [apply name_similarity_sym_eq|]. split; [apply is_exact_name_sym|].
  unfold classify_name_status.
  now rewrite (is_exact_name_sym table a b), (name_similarity_sym_eq table a b).
Qed.

(** X8: two names are equal after normalization exactly when they have
    the same tokens in the same order; case, punctuation and spacing play
    no part. *)
Theorem exact_iff_same_tokens (table : N -> option str) (a b : option str) :
  is_exact_name table a b = true <-> name_tokens table a = name_tokens table b.
Proof.
  split.
  - intros E. apply is_exact_name_eq in E. unfold name_tokens. now rewrite E.
  - apply same_tokens_exact.
Qed.

(** X9: the similarity of two names is 100 exactly when one name's
    tokens are a rearrangement of the other's. *)
Theorem similarity_100_iff_same_tokens (table : N -> option str) (a b : option str) :
  (name_similarity table a b == 100)%Q
  <-> Permutation (name_tokens table a) (name_tokens table b).
Proof.
  split; [|apply name_similarity_perm].
  unfold name_similarity, token_sort_ratio.
  fold (name_tokens table a). fold (name_tokens table b).
  intros H. apply ratio_100 in H. apply join_tokens_inj in H.
  - rewrite <- (sorted_perm (name_tokens table a)), H. apply sorted_perm.
  - eapply Permutation_Forall; [symmetry; apply sorted_perm | apply name_tokens_pieces].
  - eapply Permutation_Forall; [symmetry; apply sorted_perm | apply name_tokens_pieces].
Qed.

Lemma verdict_ranks :
  verdict_rank MATCHED = 2%nat /\ verdict_rank PROBABLE = 1%nat
  /\ verdict_rank NO_MATCH = 0%nat.
Proof. repeat split; vm_compute; reflexivity. Qed.

Lemma inject_Z_le (x y : Z) : (x <= y)%Z -> (inject_Z x <= inject_Z y)%Q.
Proof. intros H. unfold Qle. simpl. lia. Qed.

(** X10: for a threshold of at most 100, two names made of the same
    tokens are never classified [no_match]: the verdict is [matched] when
    the tokens come in the same order and the fuzzy verdict when they do
    not. *)
Theorem reordered_names_verdict (table : N -> option str) (q b : option str) (t : Z) :
  Permutation (name_tokens table q) (name_tokens table b) ->
  (t <= 100)%Z ->
  (name_tokens table q = name_tokens table b ->
   classify_name_status table q b t = MATCHED)
  /\ (name_tokens table q <> name_tokens table b ->
      classify_name_status table q b t = PROBABLE).
Proof.
  intros Hp Ht. rewrite classify_name_status_cases. split; intros H.
  - now rewrite (same_tokens_exact table q b H).
  - destruct (is_exact_name table q b) eqn:E.
    + apply is_exact_name_eq in E. exfalso. apply H. unfold name_tokens. now rewrite E.
    + apply fuzzy_branch_ge. rewrite (name_similarity_perm table q b Hp).
      now apply (inject_Z_le t 100).
Qed.

Lemma reordered_names_verdict_witness :
  Permutation (name_tokens latin1_table (Some (py "Jane A. Doe")))
    (name_tokens latin1_table (Some (py "doe, jane a")))
  /\ classify_name_status latin1_table (Some (py "Jane A. Doe")) (Some (py "doe, jane a"))
       FUZZY_MIN = PROBABLE.
Proof.
  assert (Hp : Permutation (name_tokens latin1_table (Some (py "Jane A. Doe")))
                 (name_tokens latin1_table (Some (py "doe, jane a")))).
  { change (Permutation [py "jane"; py "a"; py "doe"] [py "doe"; py "jane"; py "a"]).
    apply (Permutation_app_comm [py "jane"; py "a"] [py "doe"]). }
  split; [exact Hp|].
  apply (reordered_names_verdict latin1_table (Some (py "Jane A. Doe"))
           (Some (py "doe, jane a")) FUZZY_MIN Hp).
  - vm_compute. discriminate.
  - vm_compute. discriminate.
Defined.

(** X11: raising the threshold never strengthens the verdict. *)
Theorem threshold_monotone (table : N -> option str) (q b : option str) (t t' : Z) :
  (t <= t')%Z ->
  (verdict_rank (classify_name_status table q b t')
   <= verdict_rank (classify_name_status table q b t))%nat.
Proof.
  intros Ht. rewrite !classify_name_status_cases.
  destruct (is_exact_name table q b); [lia|].
  unfold fuzzy_branch.
  destruct (Qle_bool (inject_Z t') _) eqn:E'.
  - apply Qle_bool_iff in E'.
    replace (Qle_bool (inject_Z t) _) with true; [lia|].
    symmetry. apply Qle_bool_iff. eapply Qle_trans; [|exact E'].
    now apply inject_Z_le.
  - destruct verdict_ranks as (_ & _ & ->). lia.
Qed.

Lemma threshold_monotone_witness :
  (verdict_rank (classify_name_status latin1_table (Some (py "Jane Doe"))
                   (Some (py "J. Doe")) 92)
   <= verdict_rank (classify_name_status latin1_table (Some (py "Jane Doe"))
                      (Some (py "J. Doe")) 70))%nat.
Proof.
  apply (threshold_monotone latin1_table (Some (py "Jane Doe")) (Some (py "J. Doe")) 70 92).
  lia.
Defined.

(** X12: with a threshold of 0 or less the classifier never answers
    [no_match]; with a threshold above 100 it never gives the fuzzy
    verdict. *)
Theorem threshold_extremes (table : N -> option str) (q b : option str) (t : Z) :
  ((t <= 0)%Z -> classify_name_status table q b t <> NO_MATCH)
  /\ ((100 < t)%Z -> classify_name_status table q b t <> PROBABLE).
Proof.
  pose proof (name_similarity_bounds table q b) as [H0 H100].
  rewrite classify_name_status_cases. split; intros Ht.
  - destruct (is_exact_name table q b); [vm_compute; discriminate|].
    rewrite fuzzy_branch_ge; [vm_compute; discriminate|].
    eapply Qle_trans; [apply (inject_Z_le t 0 Ht) | exact H0].
  - destruct (is_exact_name table q b); [vm_compute; discriminate|].
    rewrite fuzzy_branch_lt; [vm_compute; discriminate|].
    eapply Qle_lt_trans; [exact H100|]. unfold Qlt. simpl. lia.
Qed.

Lemma threshold_extremes_witness :
  classify_name_status latin1_table (Some (py "Jane Doe")) (Some (py "Bob")) 0 <> NO_MATCH
  /\ classify_name_status latin1_table (Some (py "Jane Doe")) (Some (py "Doe Jane")) 101
     <> PROBABLE.
Proof.
  split.
  - apply (threshold_extremes latin1_table (Some (py "Jane Doe")) (Some (py "Bob")) 0). lia.
  - apply (threshold_extremes latin1_table (Some (py "Jane Doe")) (Some (py "Doe Jane")) 101).
    lia.
Defined.

(** ** The populator, further *)

Section PopulatorCalls.
Variable NO_IMAGE_TOKEN : str.
Variable compare_faces : str -> str -> outcome (gmap string pyval).
Variable src : str.

Abbreviation step1 := (step NO_IMAGE_TOKEN compare_faces src).

(** The calls of a run, in the order of the list, with no URL twice. *)
Lemma populate_calls_once (cs : list candidate) (w : world) :
  (forall c, In c cs -> eligible NO_IMAGE_TOKEN c = true ->
             is_Some (find (url_is (url_of c)) (or_nil (candidates (disk w))))) ->
  exists ks,
    calls (fold_left step1 cs w) = calls w ++ ks
    /\ NoDup (call_urls ks)
    /\ sublist (map call_for ks) cs
    /\ Forall (fun k => k = call_of src (call_for k)
                        /\ has_face (disk w) (url_of (call_for k)) = false) ks.
Proof.
  revert w. induction cs as [|c cs IH]; intros w Hk; simpl.
  - exists []. rewrite app_nil_r. repeat split; constructor.
  - pose proof (step_preserved NO_IMAGE_TOKEN compare_faces src w c) as Hp.
    destruct (IH (step1 w c)) as (ks & Hcalls & Hnd & Hsub & Hks).
    { intros c' Hin He. eapply known_preserved; [exact Hp|]. apply Hk; [now right | exact He]. }
    assert (Hrest : Forall (fun k => k = call_of src (call_for k)
                        /\ has_face (disk w) (url_of (call_for k)) = false) ks).
    { eapply List.Forall_impl; [|exact Hks]. intros k [H1 H2]. split; [exact H1|].
      destruct (has_face (disk w) (url_of (call_for k))) eqn:E; [|reflexivity].
      rewrite (has_face_preserved _ _ _ Hp E) in H2. discriminate. }
    destruct (step_cases NO_IMAGE_TOKEN compare_faces src w c)
      as [[E _]|(He & Hf & Hd & Hc)].
    + rewrite E in *. exists ks. repeat split; try assumption.
      now apply sublist_cons.
    + exists (call_of src c :: ks). split; [|split; [|split]].
      * rewrite Hcalls, Hc, <- app_assoc. reflexivity.
      * simpl. apply NoDup_cons. split; [|exact Hnd].
        intros Hin. unfold call_urls in Hin. apply list_elem_of_In, in_map_iff in Hin.
        destruct Hin as (k & Hu & Hin).
        rewrite List.Forall_forall in Hks. destruct (Hks k Hin) as [_ Hno].
        rewrite Hu in Hno. apply has_face_false in Hno.
        rewrite Hd, face_of_set_face_eq in Hno; [discriminate|].
        apply Hk; [now left | exact He].
      * simpl. now apply sublist_skip.
      * constructor; [split; [reflexivity | exact Hf] | exact Hrest].
Qed.

(** A run on the record a run has left does nothing more. *)
Lemma populate_again
    (compare_faces' : str -> str -> outcome (gmap string pyval)) (src' : str)
    (w : world) :
  let w1 := fold_left step1 (or_nil (candidates (disk w))) w in
  fold_left (step NO_IMAGE_TOKEN compare_faces' src') (or_nil (candidates (disk w1))) w1
  = w1.
Proof.
  cbv zeta. set (cs := or_nil (candidates (disk w))).
  set (w1 := fold_left step1 cs w).
  assert (Hp : Forall2 preserved cs (or_nil (candidates (disk w1))))
    by apply populate_preserved.
  apply populate_skip.
  eapply Forall2_preserved_all; [|exact Hp|].
  - intros c c' Hc H. destruct (preserved_eligible NO_IMAGE_TOKEN c c' Hc) as (-> & -> & _).
    exact H.
  - intros c Hin. simpl. destruct (eligible NO_IMAGE_TOKEN c) eqn:He; [right | now left].
    apply populate_complete; [|exact Hin | exact He].
    intros c' Hin' He'. now apply known_own with NO_IMAGE_TOKEN.
Qed.
End PopulatorCalls.

(** X13: in one run of the populator the scorer is called at most once
    per profile URL, for candidates taken in the stored order, each time
    with the given source image and the candidate's own photo reference;
    so there are at most as many calls as candidates. *)
Theorem populator_calls_once (NO_IMAGE_TOKEN : str)
    (compare_faces : str -> str -> outcome (gmap string pyval))
    (src : str) (w : world) :
  let w1 := exec (compute_missing_face_metrics NO_IMAGE_TOKEN compare_faces src) w in
  exists ks,
    calls w1 = calls w ++ ks
    /\ NoDup (call_urls ks)
    /\ sublist (map call_for ks) (or_nil (candidates (disk w)))
    /\ Forall (fun k => call_src k = src /\ call_img k = img_of (call_for k)) ks
    /\ (length ks <= length (or_nil (candidates (disk w))))%nat.
Proof.
  cbv zeta. unfold exec.
  rewrite (compute_missing_face_metrics_run NO_IMAGE_TOKEN compare_faces src w).
  cbn [snd].
  destruct (populate_calls_once NO_IMAGE_TOKEN compare_faces src
              (or_nil (candidates (disk w))) w) as (ks & Hcalls & Hnd & Hsub & Hks).
  { intros c' Hin' He'. now apply known_own with NO_IMAGE_TOKEN. }
  exists ks. repeat split; try assumption.
  - eapply List.Forall_impl; [|exact Hks]. intros k [-> _]. split; reflexivity.
  - apply sublist_length in Hsub. now rewrite length_map in Hsub.
Qed.

(** ** The orchestrator, further *)

Section OrchestratorRuns.
Variable table : N -> option str.
Variable NO_IMAGE_TOKEN : str.
Variable compare_faces : str -> str -> outcome (gmap string pyval).
Variable select_best_candidate : person -> option candidate.
Variable parse_float : str -> option Q.

Abbreviation run1 :=
  (run_matcher table NO_IMAGE_TOKEN compare_faces select_best_candidate parse_float).
Abbreviation populated1 w src :=
  (exec (compute_missing_face_metrics NO_IMAGE_TOKEN compare_faces src) w).

Lemma run_matcher_exec (w : world) (src : str) (rest : list str) :
  or_nil (source_images (disk w)) = src :: rest ->
  or_nil (candidates (disk w)) <> [] ->
  exec run1 w = populated1 w src.
Proof.
  intros Hs Hc. unfold exec at 1.
  rewrite (run_matcher_main _ _ _ _ _ w src rest Hs Hc).
  destruct (select_best_candidate _); [|reflexivity].
  destruct (py_float _ _); reflexivity.
Qed.

Lemma populated_again (w : world) (src : str) :
  populated1 (populated1 w src) src = populated1 w src.
Proof.
  unfold exec. rewrite !compute_missing_face_metrics_run. cbn [snd].
  apply populate_again.
Qed.

Lemma populated_frame (w : world) (src : str) :
  query_name (disk (populated1 w src)) = query_name (disk w)
  /\ source_images (disk (populated1 w src)) = source_images (disk w)
  /\ (or_nil (candidates (disk w)) <> [] ->
      or_nil (candidates (disk (populated1 w src))) <> []).
Proof.
  unfold exec. rewrite compute_missing_face_metrics_run. cbn [snd].
  destruct (populate_frame NO_IMAGE_TOKEN compare_faces src
              (or_nil (candidates (disk w))) w) as [H1 H2].
  split; [exact H1|]. split; [exact H2|].
  pose proof (populate_preserved NO_IMAGE_TOKEN compare_faces src
                (or_nil (candidates (disk w))) w) as Hp.
  intros Hne E. rewrite E in Hp. inversion Hp as [E'|]. now rewrite <- E' in Hne.
Qed.

(** X14: running the orchestrator again on the record it has left gives
    the same payload (or the same exception), calls the scorer for no
    candidate and leaves the record as it is. *)
Theorem run_matcher_idempotent (w : world) :
  run1 (exec run1 w) = (value run1 w, exec run1 w).
Proof.
  destruct (is_nil (or_nil (source_images (disk w)))
            || is_nil (or_nil (candidates (disk w)))) eqn:Hg.
  - unfold exec, value. rewrite (run_matcher_guard _ _ _ _ _ w Hg). cbn [fst snd].
    now apply run_matcher_guard.
  - destruct (guard_false w Hg) as [(src & rest & Hs) Hc].
    rewrite (run_matcher_exec w src rest Hs Hc).
    destruct (populated_frame w src) as (Hq & Hi & Hn).
    unfold value.
    rewrite (run_matcher_main _ _ _ _ _ w src rest Hs Hc).
    rewrite (run_matcher_main _ _ _ _ _ (populated1 w src) src rest);
      [|now rewrite Hi | now apply Hn].
    rewrite populated_again, Hq. unfold no_match_result. rewrite Hq.
    destruct (select_best_candidate _); [|reflexivity].
    destruct (py_float _ _); reflexivity.
Qed.

(** X15: every scorer call of a run of the orchestrator compares the
    first source image of the record, and no profile URL is scored
    twice. *)
Theorem run_matcher_first_image (w : world) :
  exists ks,
    calls (exec run1 w) = calls w ++ ks
    /\ NoDup (call_urls ks)
    /\ Forall (fun k => head (or_nil (source_images (disk w))) = Some (call_src k)) ks.
Proof.
  destruct (is_nil (or_nil (source_images (disk w)))
            || is_nil (or_nil (candidates (disk w)))) eqn:Hg.
  - exists []. unfold exec. rewrite (run_matcher_guard _ _ _ _ _ w Hg). cbn [snd].
    rewrite app_nil_r. repeat split; constructor.
  - destruct (guard_false w Hg) as [(src & rest & Hs) Hc].
    rewrite (run_matcher_exec w src rest Hs Hc).
    unfold exec. rewrite compute_missing_face_metrics_run. cbn [snd].
    destruct (populate_calls_once NO_IMAGE_TOKEN compare_faces src
                (or_nil (candidates (disk w))) w) as (ks & Hcalls & Hnd & _ & Hks).
    { intros c' Hin' He'. now apply known_own with NO_IMAGE_TOKEN. }
    exists ks. split; [exact Hcalls|]. split; [exact Hnd|].
    eapply List.Forall_impl; [|exact Hks]. intros k [-> _]. now rewrite Hs.
Qed.
End OrchestratorRuns.

(** ** Case *)

Lemma lower_cp_ascii (c : N) : is_ascii c = true -> is_ascii (lower_cp c) = true.
Proof. unfold is_ascii, lower_cp. intros H. cmp_cases. Qed.

Lemma lower_cp_idem (c : N) : lower_cp (lower_cp c) = lower_cp c.
Proof. unfold lower_cp. cmp_cases. Qed.

(** X17: the case of the ASCII letters of a name plays no part in its
    normal form: an ASCII name and its lower-case form normalize to the
    same string, and so are an exact match. *)
Theorem normalize_name_case (table : N -> option str) (a : str) :
  Forall (fun c => is_ascii c = true) a ->
  normalize_name table (Some (lower a)) = normalize_name table (Some a)
  /\ is_exact_name table (Some (lower a)) (Some a) = true.
Proof.
  intros Ha.
  assert (E : normalize_name table (Some (lower a)) = normalize_name table (Some a)).
  { unfold normalize_name. cbn [or_empty].
    rewrite (unidecode_ascii table a Ha), (unidecode_ascii table (lower a)).
    - f_equal. f_equal. f_equal. unfold lower. rewrite map_map.
      apply map_ext. intros c. apply lower_cp_idem.
    - unfold lower. apply List.Forall_map.
      eapply List.Forall_impl; [|exact Ha]. intros c. apply lower_cp_ascii. }
  split; [exact E|]. now apply is_exact_name_eq.
Qed.

Lemma normalize_name_case_witness :
  lower (py "Jane O'Neil-DOE") = py "jane o'neil-doe"
  /\ normalize_name latin1_table (Some (lower (py "Jane O'Neil-DOE")))
     = normalize_name latin1_table (Some (py "Jane O'Neil-DOE")).
Proof.
  split; [vm_compute; reflexivity|].
  apply (normalize_name_case latin1_table (py "Jane O'Neil-DOE")).
  vm_compute. repeat constructor.
Defined.
